(** * Aeon2DEngine: audio players, resource holder and math helpers

    A shallow embedding of the bookkeeping code of Aeon2DEngine
    (AudioProperties, ResourceHolder, AudioPlayer, MusicPlayer,
    SoundPlayer, DebugLogger, Math::pascalTriangle) together with the
    properties stated about it.

    Conventions
    - [float] is IEEE-754 binary32, through the Standard Library's
      [spec_float] at precision 24 and maximal exponent 128.
    - [int] is a 32-bit twos-complement integer carried by [Z].
    - [std::map<T, V>] is a [gmap Z V] (the id type [T] is an enumeration,
      carried by its integer value); [std::list] is a [list].
    - The [_DEBUG] macro is the [Build] argument of the operations.
    - An unchecked dereference of [end()] or of a null pointer is
      [Undefined]. *)

From Stdlib Require Import ZArith Lia String Ascii.
From Stdlib Require Import Floats.SpecFloat.
From stdpp Require Import gmap strings list fin_maps.

(** ** Single-precision floats *)

Module Float32.

Definition prec : Z := 24.
Definition emax : Z := 128.

Definition float : Type := spec_float.

(** An integer literal such as [100.f]. *)
Definition of_Z (z : Z) : float := binary_normalize prec emax z 0 false.

Definition mul : float -> float -> float := SFmul prec emax.
Definition div : float -> float -> float := SFdiv prec emax.
Definition add : float -> float -> float := SFadd prec emax.
Definition neg : float -> float := SFopp.
Definition sqrtf : float -> float := SFsqrt prec emax.

Definition ltb : float -> float -> bool := SFltb.
Definition leb : float -> float -> bool := SFleb.

Definition is_nan (x : float) : bool :=
  match x with S754_nan => true | _ => false end.

(** [fmaxf] and [fminf] of <cmath>: the larger (smaller) argument, and
    the other argument when one of them is a NaN. The first argument is
    returned only when it is strictly greater (smaller); arguments that
    compare equal give the second one, as the C library of x86-64
    computes it with [maxss] and [minss]. The two zeros compare equal,
    so [fmaxf(-0.f, 0.f)] is [+0.f]. *)
Definition fmaxf (x y : float) : float :=
  if ltb y x then x
  else if leb x y then y
  else if is_nan y then x else y.

Definition fminf (x y : float) : float :=
  if ltb x y then x
  else if leb y x then y
  else if is_nan y then x else y.

(** The operators [==] and [!=] on floats: a NaN equals nothing and
    differs from everything. *)
Definition eqb : float -> float -> bool := SFeqb.
Definition neqb (x y : float) : bool := negb (SFeqb x y).

End Float32.

Import Float32.

(** ** Builds, undefined behaviour, process-wide state *)

(** Whether [_DEBUG] is defined. *)
Inductive Build : Type := Debug | Release.

(** The outcome of an operation that may dereference a missing entry. *)
Inductive result (A : Type) : Type :=
| Done (a : A)
| Undefined.
Arguments Done {A} a.
Arguments Undefined {A}.

Record Vector2f : Type := mkVector2f { v2x : float; v2y : float }.
Record Vector3f : Type := mkVector3f { v3x : float; v3y : float; v3z : float }.

(** The state shared by the whole process: the static message buffer of
    [DebugLogger] and the position of [sf::Listener]. *)
Record World : Type := mkWorld {
  messages_ : list string;
  listenerPosition : Vector3f
}.

(** [sf::Listener] starts at the origin. *)
Definition initialWorld : World :=
  mkWorld [] (mkVector3f (of_Z 0) (of_Z 0) (of_Z 0)).

Module Listener.

Definition getPosition (w : World) : Vector3f := listenerPosition w.

Definition setPosition (x y z : float) (w : World) : World :=
  mkWorld (messages_ w) (mkVector3f x y z).

End Listener.

Module DebugLogger.

Definition cacheMessage (message : string) (w : World) : World :=
  mkWorld (messages_ w ++ [message]) (listenerPosition w).

Definition getCachedMessages (w : World) : list string * World :=
  (messages_ w, mkWorld [] (listenerPosition w)).

End DebugLogger.

(** The message is cached in a debug build only ([#ifdef _DEBUG]). *)
Definition debugMessage (b : Build) (message : string) (w : World) : World :=
  match b with
  | Debug => DebugLogger.cacheMessage message w
  | Release => w
  end.

(** The double-quote character of the messages that quote a file path. *)
Definition dquote : string := String (ascii_of_nat 34) EmptyString.

(** [std::map::insert]: an existing key keeps its value. *)
Definition map_insert {V : Type} (k : Z) (v : V) (m : gmap Z V) : gmap Z V :=
  match m !! k with
  | Some _ => m
  | None => <[k := v]> m
  end.

(** [std::map::rbegin]: the entry with the greatest key. *)
Definition greater_entry {V : Type} (e : Z * V) (acc : option (Z * V))
  : option (Z * V) :=
  match acc with
  | None => Some e
  | Some a => if (a.1 <? e.1)%Z then Some e else Some a
  end.

Definition rbegin {V : Type} (m : gmap Z V) : option (Z * V) :=
  foldr greater_entry None (map_to_list m).

(** ** Math *)

Module Math.

Local Open Scope Z_scope.

Definition INT_MAX : Z := 2 ^ 31 - 1.
Definition INT_MIN : Z := - 2 ^ 31.

(** The value an [int] holds after an operation whose exact result
    is [z]. *)
Definition wrap (z : Z) : Z := (z + 2 ^ 31) mod 2 ^ 32 - 2 ^ 31.

Definition iadd (a b : Z) : Z := wrap (a + b).
Definition isub (a b : Z) : Z := wrap (a - b).
Definition imul (a b : Z) : Z := wrap (a * b).
Definition idiv (a b : Z) : Z := wrap (Z.quot a b).

(** [row[i]] read and written; an index outside the vector is an
    out-of-bounds access. *)
Definition vec_get (row : list Z) (i : Z) : option Z :=
  if 0 <=? i then row !! Z.to_nat i else None.

Definition vec_set (row : list Z) (i v : Z) : option (list Z) :=
  if (0 <=? i) && (i <? Z.of_nat (length row))
  then Some (<[Z.to_nat i := v]> row)
  else None.

(** [for (int i = lo; i < hi; i++) body] *)
Fixpoint for_loop {S : Type} (count : nat) (i : Z)
    (body : Z -> S -> option S) (s : S) : option S :=
  match count with
  | O => Some s
  | Datatypes.S c => s' ← body i s; for_loop c (iadd i 1) body s'
  end.

Definition for_range {S : Type} (lo hi : Z)
    (body : Z -> S -> option S) (s : S) : option S :=
  for_loop (Z.to_nat (hi - lo)) lo body s.

(** How a call that builds and fills a vector ends: it returns, the
    constructor of the vector throws [std::length_error], or an element
    outside the vector is accessed. *)
Inductive outcome (A : Type) : Type :=
| Returns (a : A)
| LengthError
| OutOfBounds.
Arguments Returns {A} a.
Arguments LengthError {A}.
Arguments OutOfBounds {A}.

(** [std::vector<int> row(size)] for an [int] argument: the size is
    converted to [size_t], which takes a negative one above
    [max_size()], and the constructor then throws (no result). The
    elements start at 0; memory is taken to suffice. *)
Definition vector (size : Z) : option (list Z) :=
  if size <? 0 then None else Some (replicate (Z.to_nat size) 0).

(** The accesses of the body were all inside the vector, or one was not. *)
Definition checked {A : Type} (body : option A) : outcome A :=
  match body with
  | Some a => Returns a
  | None => OutOfBounds
  end.

Definition pascalTriangle (n : Z) : outcome (list Z) :=
  match vector (iadd n 1) with
  | None => LengthError
  | Some row =>
      checked
        (row ← vec_set row 0 1;
         row ← for_range 1 (iadd (idiv n 2) 1)
                 (fun i row =>
                    prev ← vec_get row (isub i 1);
                    vec_set row i (idiv (imul prev (iadd (isub n i) 1)) i))
                 row;
         for_range (iadd (idiv n 2) 1) (n + 1)
           (fun i row =>
              mirror ← vec_get row (isub n i);
              vec_set row i mirror)
           row)
  end.

Definition dotProduct (vec1 vec2 : Vector2f) : float :=
  add (mul (v2x vec1) (v2x vec2)) (mul (v2y vec1) (v2y vec2)).

End Math.

(** ** AudioProperties *)

Module AudioProperties.

Record t : Type := mk {
  volume_ : float;
  attenuation_ : float;
  pitch_ : float;
  minDistance2d_ : float;
  minDistance3d_ : float;
  relativeToListener_ : bool
}.

Definition getVolume (p : t) : float := volume_ p.
Definition getAttenuation (p : t) : float := attenuation_ p.
Definition getPitch (p : t) : float := pitch_ p.
Definition getMinDistance2D (p : t) : float := minDistance2d_ p.
Definition getMinDistance3D (p : t) : float := minDistance3d_ p.
Definition isRelativeToListener (p : t) : bool := relativeToListener_ p.

Definition setVolume (volume : float) (p : t) : t :=
  mk (fmaxf (fminf volume (of_Z 100)) (of_Z 0))
     (attenuation_ p) (pitch_ p) (minDistance2d_ p) (minDistance3d_ p)
     (relativeToListener_ p).

Definition setAttenuation (attenuation : float) (p : t) : t :=
  mk (volume_ p) (fmaxf attenuation (of_Z 0))
     (pitch_ p) (minDistance2d_ p) (minDistance3d_ p)
     (relativeToListener_ p).

Definition setPitch (pitch : float) (p : t) : t :=
  mk (volume_ p) (attenuation_ p) pitch (minDistance2d_ p)
     (minDistance3d_ p) (relativeToListener_ p).

Definition setRelativeToListener (flag : bool) (p : t) : t :=
  mk (volume_ p) (attenuation_ p) (pitch_ p) (minDistance2d_ p)
     (minDistance3d_ p) flag.

(** Reads the depth of the listener at the time of the call. *)
Definition setMinDistance2D (minDistance2d : float) (w : World) (p : t) : t :=
  let d := fmaxf minDistance2d (of_Z 1) in
  let LISTENER_POS_Z := v3z (Listener.getPosition w) in
  mk (volume_ p) (attenuation_ p) (pitch_ p) d
     (sqrtf (add (mul d d) (mul LISTENER_POS_Z LISTENER_POS_Z)))
     (relativeToListener_ p).

(** The constructor initialises [pitch_] and [relativeToListener_] and
    assigns the four other members through the setters; [of_Z 0] stands
    for their indeterminate value before that. *)
Definition construct (volume attenuation pitch minDistance2d : float)
    (relativeToListener : bool) (w : World) : t :=
  setMinDistance2D minDistance2d w
    (setAttenuation attenuation
       (setVolume volume
          (mk (of_Z 0) (of_Z 0) pitch (of_Z 0) (of_Z 0) relativeToListener))).

(** [AudioProperties()] with the default arguments of the declaration. *)
Definition default (w : World) : t :=
  construct (of_Z 100) (of_Z 1) (of_Z 1) (of_Z 1) false w.

(** The copy constructor and the copy assignment copy the six members. *)
Definition copy (other : t) : t :=
  mk (volume_ other) (attenuation_ other) (pitch_ other)
     (minDistance2d_ other) (minDistance3d_ other)
     (relativeToListener_ other).

(** The move constructor: [std::move] of a [float] or a [bool] copies
    it, and [other] keeps its members. *)
Definition move (other : t) : t :=
  mk (volume_ other) (attenuation_ other) (pitch_ other)
     (minDistance2d_ other) (minDistance3d_ other)
     (relativeToListener_ other).

(** [operator=] by copy and by move: the six members of [this] are
    assigned those of [other], the stored 3D distance among them. *)
Definition operator_assign (other this : t) : t :=
  mk (volume_ other) (attenuation_ other) (pitch_ other)
     (minDistance2d_ other) (minDistance3d_ other)
     (relativeToListener_ other).

Definition operator_move_assign (other this : t) : t :=
  mk (volume_ other) (attenuation_ other) (pitch_ other)
     (minDistance2d_ other) (minDistance3d_ other)
     (relativeToListener_ other).

(** [operator==] *)
Definition operator_eq (ap1 ap2 : t) : bool :=
  eqb (volume_ ap1) (volume_ ap2)
  && eqb (attenuation_ ap1) (attenuation_ ap2)
  && eqb (pitch_ ap1) (pitch_ ap2)
  && eqb (minDistance2d_ ap1) (minDistance2d_ ap2)
  && eqb (minDistance3d_ ap1) (minDistance3d_ ap2)
  && bool_decide (relativeToListener_ ap1 = relativeToListener_ ap2).

(** [operator!=] *)
Definition operator_neq (ap1 ap2 : t) : bool :=
  neqb (volume_ ap1) (volume_ ap2)
  || neqb (attenuation_ ap1) (attenuation_ ap2)
  || neqb (pitch_ ap1) (pitch_ ap2)
  || neqb (minDistance2d_ ap1) (minDistance2d_ ap2)
  || neqb (minDistance3d_ ap1) (minDistance3d_ ap2)
  || bool_decide (relativeToListener_ ap1 ≠ relativeToListener_ ap2).

End AudioProperties.

(** ** ResourceHolder *)

Module ResourceHolder.

Section Holder.

Context {Res : Type} {T K : Type}.

(** [Res::loadFromFile] on a fresh resource: the loaded resource, or
    [None] when the library reports a failure. *)
Variable loadFromFile : string -> option Res.
Variable loadFromFile1 : string -> T -> option Res.
Variable loadFromFile2 : string -> T -> K -> option Res.

Definition load (b : Build) (filepath : string) (id : Z)
    (resourceMap_ : gmap Z Res) (w : World) : gmap Z Res * World :=
  match loadFromFile filepath with
  | Some res => (map_insert id res resourceMap_, w)
  | None =>
      (resourceMap_,
       debugMessage b
         ("ae::ResourceHolder::load - Failed to load " ++ dquote
            ++ filepath ++ dquote) w)
  end.

Definition load1 (b : Build) (filepath : string) (t : T) (id : Z)
    (resourceMap_ : gmap Z Res) (w : World) : gmap Z Res * World :=
  match loadFromFile1 filepath t with
  | Some res => (map_insert id res resourceMap_, w)
  | None =>
      (resourceMap_,
       debugMessage b
         ("ae::ResourceHolder::load<T> - Failed to load " ++ dquote
            ++ filepath ++ dquote) w)
  end.

Definition load2 (b : Build) (filepath : string) (t : T) (k : K) (id : Z)
    (resourceMap_ : gmap Z Res) (w : World) : gmap Z Res * World :=
  match loadFromFile2 filepath t k with
  | Some res => (map_insert id res resourceMap_, w)
  | None =>
      (resourceMap_,
       debugMessage b
         ("ae::ResourceHolder::load<T,K> - Failed to load " ++ dquote
            ++ filepath ++ dquote) w)
  end.

Definition unload (b : Build) (id : Z)
    (resourceMap_ : gmap Z Res) (w : World)
  : result (gmap Z Res * World) :=
  match resourceMap_ !! id, b with
  | Some _, _ => Done (delete id resourceMap_, w)
  | None, Debug =>
      Done (resourceMap_,
            DebugLogger.cacheMessage
              "ae::ResourceHolder::unload - Unable to find resource" w)
  | None, Release => Undefined
  end.

(** The pointer returned by [get]; [None] is [nullptr]. *)
Definition get (b : Build) (id : Z)
    (resourceMap_ : gmap Z Res) (w : World)
  : result (option Res * World) :=
  match resourceMap_ !! id, b with
  | Some res, _ => Done (Some res, w)
  | None, Debug =>
      Done (None,
            DebugLogger.cacheMessage
              "ae::ResourceHolder::get - Unable to find resource" w)
  | None, Release => Undefined
  end.

End Holder.

End ResourceHolder.

(** ** AudioPlayer *)

Module AudioPlayer.

(** The value [setGlobalVolume] stores in [globalVolume_]. *)
Definition setGlobalVolume (globalVolume : float) : float :=
  fmaxf (fminf globalVolume (of_Z 100)) (of_Z 0).

(** The constructor: the initial [globalVolume_] and the listener moved
    to (0, 0, 300). *)
Definition construct (w : World) : float * World :=
  (of_Z 100, Listener.setPosition (of_Z 0) (of_Z 0) (of_Z 300) w).

Definition setListenerPosition (pos : Vector2f) (w : World) : World :=
  Listener.setPosition (v2x pos) (neg (v2y pos))
    (v3z (Listener.getPosition w)) w.

Definition getListenerPosition (w : World) : Vector2f :=
  let pos := Listener.getPosition w in
  mkVector2f (v3x pos) (neg (v3y pos)).

End AudioPlayer.

(** ** The audio engine

    [sf::SoundSource], [sf::Music], [sf::Sound] and [sf::SoundBuffer]
    belong to the multimedia library the engine is built on. They are
    kept as records of the parameters the players set, with the status
    transitions of the library: [play] starts or resumes, [pause] only
    affects a playing source, [stop] stops. *)

Inductive Status : Type := Stopped | Paused | Playing.

#[global] Instance Status_eq_dec : EqDecision Status.
Proof. solve_decision. Defined.

Module SoundSource.

Record t : Type := mk {
  status : Status;
  volume : float;
  position : Vector3f;
  attenuation : float;
  pitch : float;
  minDistance : float;
  relativeToListener : bool
}.

Definition default : t :=
  mk Stopped (of_Z 100) (mkVector3f (of_Z 0) (of_Z 0) (of_Z 0))
     (of_Z 1) (of_Z 1) (of_Z 1) false.

Definition setStatus (s : Status) (x : t) : t :=
  mk s (volume x) (position x) (attenuation x) (pitch x) (minDistance x)
     (relativeToListener x).

Definition setVolume (v : float) (x : t) : t :=
  mk (status x) v (position x) (attenuation x) (pitch x) (minDistance x)
     (relativeToListener x).

Definition setPosition (px py pz : float) (x : t) : t :=
  mk (status x) (volume x) (mkVector3f px py pz) (attenuation x) (pitch x)
     (minDistance x) (relativeToListener x).

Definition setAttenuation (a : float) (x : t) : t :=
  mk (status x) (volume x) (position x) a (pitch x) (minDistance x)
     (relativeToListener x).

Definition setPitch (p : float) (x : t) : t :=
  mk (status x) (volume x) (position x) (attenuation x) p (minDistance x)
     (relativeToListener x).

Definition setMinDistance (d : float) (x : t) : t :=
  mk (status x) (volume x) (position x) (attenuation x) (pitch x) d
     (relativeToListener x).

Definition setRelativeToListener (r : bool) (x : t) : t :=
  mk (status x) (volume x) (position x) (attenuation x) (pitch x)
     (minDistance x) r.

Definition getStatus (x : t) : Status := status x.

Definition play (x : t) : t := setStatus Playing x.

Definition pause (x : t) : t :=
  match status x with
  | Playing => setStatus Paused x
  | _ => x
  end.

Definition stop (x : t) : t := setStatus Stopped x.

End SoundSource.

(** Which paths the library can open and decode. *)
Definition FileSystem : Type := string -> bool.

Module Music.

Record t : Type := mk {
  source : SoundSource.t;
  loop : bool;
  file : option string
}.

Definition default : t := mk SoundSource.default false None.

Definition onSource (f : SoundSource.t -> SoundSource.t) (m : t) : t :=
  mk (f (source m)) (loop m) (file m).

Definition setLoop (l : bool) (m : t) : t := mk (source m) l (file m).

Definition getStatus (m : t) : Status := SoundSource.getStatus (source m).

(** [openFromFile] stops the stream, then binds the file when it can be
    opened. *)
Definition openFromFile (fs : FileSystem) (filename : string) (m : t)
  : bool * t :=
  if fs filename
  then (true, mk (SoundSource.stop (source m)) (loop m) (Some filename))
  else (false, mk (SoundSource.stop (source m)) (loop m) None).

End Music.

Record SoundBuffer : Type := mkSoundBuffer { sb_file : string }.

Definition SoundBuffer_loadFromFile (fs : FileSystem) (filename : string)
  : option SoundBuffer :=
  if fs filename then Some (mkSoundBuffer filename) else None.

Module Sound.

Record t : Type := mk {
  source : SoundSource.t;
  buffer : SoundBuffer
}.

(** [sf::Sound(buffer)] *)
Definition construct (b : SoundBuffer) : t := mk SoundSource.default b.

Definition onSource (f : SoundSource.t -> SoundSource.t) (s : t) : t :=
  mk (f (source s)) (buffer s).

Definition getStatus (s : t) : Status := SoundSource.getStatus (source s).

End Sound.

(** ** MusicPlayer *)

Module MusicPlayer.

Record MusicTrack : Type := mkTrack {
  music : Music.t;
  VOLUME : float
}.

(** [MusicTrack(volume)] *)
Definition newTrack (volume : float) : MusicTrack :=
  mkTrack Music.default volume.

Definition onMusic (f : Music.t -> Music.t) (track : MusicTrack)
  : MusicTrack :=
  mkTrack (f (music track)) (VOLUME track).

Record t : Type := mk {
  globalVolume_ : float;
  tracks_ : gmap Z MusicTrack
}.

Definition getGlobalVolume (p : t) : float := globalVolume_ p.

Definition construct (w : World) : t * World :=
  let (g, w') := AudioPlayer.construct w in (mk g ∅, w').

(** A lookup that misses: logged and abandoned in a debug build,
    unchecked in a release build. *)
Definition missing (b : Build) (message : string) (p : t) (w : World)
  : result (t * World) :=
  match b with
  | Debug => Done (p, DebugLogger.cacheMessage message w)
  | Release => Undefined
  end.

Definition play_at (b : Build) (position : Vector2f) (id : Z) (loop : bool)
    (p : t) (w : World) : result (t * World) :=
  match tracks_ p !! id with
  | None =>
      missing b "ae::MusicPlayer<T>::play - Unable to find music track" p w
  | Some track =>
      let m := music track in
      let m := Music.onSource
                 (SoundSource.setPosition
                    (v2x position) (neg (v2y position)) (of_Z 0)) m in
      let m := Music.setLoop loop m in
      let m := Music.onSource
                 (SoundSource.setVolume
                    (div (mul (getGlobalVolume p) (VOLUME track))
                         (of_Z 100))) m in
      let m := Music.onSource SoundSource.play m in
      Done (mk (globalVolume_ p)
               (<[id := mkTrack m (VOLUME track)]> (tracks_ p)), w)
  end.

Definition play (b : Build) (id : Z) (loop : bool) (p : t) (w : World)
  : result (t * World) :=
  play_at b (AudioPlayer.getListenerPosition w) id loop p w.

Definition pauseTrack (track : MusicTrack) : MusicTrack :=
  if decide (Music.getStatus (music track) = Playing)
  then onMusic (Music.onSource SoundSource.pause) track
  else track.

Definition resumeTrack (track : MusicTrack) : MusicTrack :=
  if decide (Music.getStatus (music track) = Paused)
  then onMusic (Music.onSource SoundSource.play) track
  else track.

(** [pause(bool)]: one pass over all the tracks. *)
Definition pause (flag : bool) (p : t) : t :=
  if flag
  then mk (globalVolume_ p) (pauseTrack <$> tracks_ p)
  else mk (globalVolume_ p) (resumeTrack <$> tracks_ p).

(** [pause(T, bool)] *)
Definition pause_id (b : Build) (id : Z) (flag : bool) (p : t) (w : World)
  : result (t * World) :=
  match tracks_ p !! id with
  | None =>
      missing b "ae::MusicPlayer<T>::pause - Unable to find music track" p w
  | Some track =>
      let m := music track in
      let m :=
        if flag && bool_decide (Music.getStatus m = Playing)
        then Music.onSource SoundSource.pause m
        else if negb flag && bool_decide (Music.getStatus m = Paused)
        then Music.onSource SoundSource.play m
        else m in
      Done (mk (globalVolume_ p)
               (<[id := mkTrack m (VOLUME track)]> (tracks_ p)), w)
  end.

Definition stop (p : t) : t :=
  mk (globalVolume_ p)
     (onMusic (Music.onSource SoundSource.stop) <$> tracks_ p).

Definition stop_id (b : Build) (id : Z) (p : t) (w : World)
  : result (t * World) :=
  match tracks_ p !! id with
  | None =>
      missing b "ae::MusicPlayer<T>::stop - Unable to find music track" p w
  | Some track =>
      Done (mk (globalVolume_ p)
               (<[id := onMusic (Music.onSource SoundSource.stop) track]>
                  (tracks_ p)), w)
  end.

Definition setMusicSourcePosition (b : Build) (position : Vector2f) (id : Z)
    (p : t) (w : World) : result (t * World) :=
  match tracks_ p !! id with
  | None =>
      missing b
        "ae::MusicPlayer<T>::setMusicSourcePosition - Unable to find music track"
        p w
  | Some track =>
      Done (mk (globalVolume_ p)
               (<[id := onMusic
                          (Music.onSource
                             (SoundSource.setPosition
                                (v2x position) (neg (v2y position))
                                (of_Z 0))) track]>
                  (tracks_ p)), w)
  end.

Definition getMusicStatus (b : Build) (id : Z) (p : t) (w : World)
  : result (Status * World) :=
  match tracks_ p !! id, b with
  | Some track, _ => Done (Music.getStatus (music track), w)
  | None, Debug =>
      Done (Stopped,
            DebugLogger.cacheMessage
              "ae::MusicPlayer<T>::getMusicStatus - Unable to find music track"
              w)
  | None, Release => Undefined
  end.

Definition rescale (GLOBAL_VOLUME : float) (track : MusicTrack)
  : MusicTrack :=
  onMusic
    (Music.onSource
       (SoundSource.setVolume
          (div (mul GLOBAL_VOLUME (VOLUME track)) (of_Z 100))))
    track.

Definition setGlobalVolume (globalVolume : float) (p : t) : t :=
  let GLOBAL_VOLUME := AudioPlayer.setGlobalVolume globalVolume in
  mk GLOBAL_VOLUME (rescale GLOBAL_VOLUME <$> tracks_ p).

(** [setupTrack] takes the entry at [rbegin()] for the track that was
    just inserted. *)
Definition setupTrack (b : Build) (fs : FileSystem)
    (properties : AudioProperties.t) (filepath : string)
    (p : t) (w : World) : result (t * World) :=
  match rbegin (tracks_ p) with
  | None => Undefined
  | Some (last, track) =>
      let (opened, m) := Music.openFromFile fs filepath (music track) in
      if opened then
        let m := Music.onSource
                   (SoundSource.setAttenuation
                      (AudioProperties.getAttenuation properties)) m in
        let m := Music.onSource
                   (SoundSource.setPitch
                      (AudioProperties.getPitch properties)) m in
        let m := Music.onSource
                   (SoundSource.setMinDistance
                      (AudioProperties.getMinDistance3D properties)) m in
        let m := Music.onSource
                   (SoundSource.setRelativeToListener
                      (AudioProperties.isRelativeToListener properties)) m in
        Done (mk (globalVolume_ p)
                 (<[last := mkTrack m (VOLUME track)]> (tracks_ p)), w)
      else
        Done (mk (globalVolume_ p) (delete last (tracks_ p)),
              debugMessage b
                ("ae::MusicPlayer<T>::loadTrack - Failed to open " ++ dquote
                   ++ filepath ++ dquote) w)
  end.

(** [load(filepath, id)] *)
Definition load (b : Build) (fs : FileSystem) (filepath : string) (id : Z)
    (p : t) (w : World) : result (t * World) :=
  match tracks_ p !! id with
  | None =>
      let properties := AudioProperties.default w in
      let p' := mk (globalVolume_ p)
                   (map_insert id
                      (newTrack (AudioProperties.getVolume properties))
                      (tracks_ p)) in
      setupTrack b fs properties filepath p' w
  | Some _ =>
      Done (p,
            debugMessage b
              "ae::MusicPlayer<T>::load - Attempt to load in music track that's already loaded in"
              w)
  end.

(** [load(filepath, properties, id)] *)
Definition load_with (b : Build) (fs : FileSystem) (filepath : string)
    (properties : AudioProperties.t) (id : Z)
    (p : t) (w : World) : result (t * World) :=
  match tracks_ p !! id with
  | None =>
      let p' := mk (globalVolume_ p)
                   (map_insert id
                      (newTrack (AudioProperties.getVolume properties))
                      (tracks_ p)) in
      setupTrack b fs properties filepath p' w
  | Some _ =>
      Done (p,
            debugMessage b
              "ae::MusicPlayer<T>::load - Attempt to load in music track that's already loaded in"
              w)
  end.

Definition unload (b : Build) (id : Z) (p : t) (w : World)
  : result (t * World) :=
  match tracks_ p !! id with
  | None =>
      missing b
        "ae::MusicPlayer<T>::unload - The ID provided isn't associated with any music track"
        p w
  | Some _ => Done (mk (globalVolume_ p) (delete id (tracks_ p)), w)
  end.

End MusicPlayer.

(** ** SoundPlayer *)

Module SoundPlayer.

Record SoundEffect : Type := mkEffect {
  sound : Sound.t;
  id : Z
}.

Definition onSound (f : SoundSource.t -> SoundSource.t) (e : SoundEffect)
  : SoundEffect :=
  mkEffect (Sound.onSource f (sound e)) (id e).

Record t : Type := mk {
  globalVolume_ : float;
  soundBuffers_ : gmap Z SoundBuffer;
  soundProperties_ : gmap Z AudioProperties.t;
  sounds_ : list SoundEffect
}.

Definition getGlobalVolume (p : t) : float := globalVolume_ p.

Definition construct (w : World) : t * World :=
  let (g, w') := AudioPlayer.construct w in (mk g ∅ ∅ [], w').

Definition removeStoppedSounds (p : t) : t :=
  mk (globalVolume_ p) (soundBuffers_ p) (soundProperties_ p)
     (filter (fun e => Sound.getStatus (sound e) ≠ Stopped) (sounds_ p)).

Definition play_at (b : Build) (position : Vector2f) (i : Z)
    (p : t) (w : World) : result (t * World) :=
  let p := removeStoppedSounds p in
  match soundProperties_ p !! i, b with
  | None, Debug =>
      Done (p,
            DebugLogger.cacheMessage
              "ae::SoundPlayer<T>::play - Unable to find sound effect" w)
  | None, Release => Undefined
  | Some props, _ =>
      match ResourceHolder.get b i (soundBuffers_ p) w with
      | Undefined => Undefined
      | Done (None, _) => Undefined
      | Done (Some buf, w) =>
          let effect := mkEffect (Sound.construct buf) i in
          let effect :=
            onSound (SoundSource.setPosition
                       (v2x position) (neg (v2y position)) (of_Z 0))
                    effect in
          let effect :=
            onSound (SoundSource.setVolume
                       (div (mul (getGlobalVolume p)
                                 (AudioProperties.getVolume props))
                            (of_Z 100)))
                    effect in
          let effect :=
            onSound (SoundSource.setAttenuation
                       (AudioProperties.getAttenuation props)) effect in
          let effect :=
            onSound (SoundSource.setPitch
                       (AudioProperties.getPitch props)) effect in
          let effect :=
            onSound (SoundSource.setMinDistance
                       (AudioProperties.getMinDistance3D props)) effect in
          let effect :=
            onSound (SoundSource.setRelativeToListener
                       (AudioProperties.isRelativeToListener props))
                    effect in
          let effect := onSound SoundSource.play effect in
          Done (mk (globalVolume_ p) (soundBuffers_ p) (soundProperties_ p)
                   (sounds_ p ++ [effect]), w)
      end
  end.

Definition play (b : Build) (i : Z) (p : t) (w : World)
  : result (t * World) :=
  play_at b (AudioPlayer.getListenerPosition w) i p w.

Definition resumeEffect (e : SoundEffect) : SoundEffect :=
  if decide (Sound.getStatus (sound e) = Paused)
  then onSound SoundSource.play e
  else e.

Definition pause (flag : bool) (p : t) : t :=
  mk (globalVolume_ p) (soundBuffers_ p) (soundProperties_ p)
     (if flag
      then onSound SoundSource.pause <$> sounds_ p
      else resumeEffect <$> sounds_ p).

Definition stop (p : t) : t :=
  removeStoppedSounds
    (mk (globalVolume_ p) (soundBuffers_ p) (soundProperties_ p)
        (onSound SoundSource.stop <$> sounds_ p)).

(** The loop of [setGlobalVolume] over the active effects: the effects
    rescaled so far, and whether the loop ran to its end ([Done]
    carries [true]), returned early on a missing entry ([false], debug
    build), or dereferenced [end()] (release build). *)
Fixpoint rescaleAll (b : Build) (GLOBAL_VOLUME : float)
    (props : gmap Z AudioProperties.t) (effects : list SoundEffect)
  : result (list SoundEffect * bool) :=
  match effects with
  | [] => Done ([], true)
  | effect :: rest =>
      match props !! id effect, b with
      | None, Debug => Done (effect :: rest, false)
      | None, Release => Undefined
      | Some found, _ =>
          let effect :=
            onSound (SoundSource.setVolume
                       (div (mul GLOBAL_VOLUME
                                 (AudioProperties.getVolume found))
                            (of_Z 100)))
                    effect in
          match rescaleAll b GLOBAL_VOLUME props rest with
          | Done (rest, finished) => Done (effect :: rest, finished)
          | Undefined => Undefined
          end
      end
  end.

Definition setGlobalVolume (b : Build) (globalVolume : float)
    (p : t) (w : World) : result (t * World) :=
  let GLOBAL_VOLUME := AudioPlayer.setGlobalVolume globalVolume in
  match rescaleAll b GLOBAL_VOLUME (soundProperties_ p) (sounds_ p) with
  | Undefined => Undefined
  | Done (effects, finished) =>
      Done (mk GLOBAL_VOLUME (soundBuffers_ p) (soundProperties_ p) effects,
            if finished then w
            else DebugLogger.cacheMessage
                   "ae::SoundPlayer<T>::setGlobalVolume - Unable to find a sound effect"
                   w)
  end.

(** [load(filepath, id)] *)
Definition load (b : Build) (fs : FileSystem) (filepath : string) (i : Z)
    (p : t) (w : World) : t * World :=
  let (buffers, w) :=
    ResourceHolder.load (SoundBuffer_loadFromFile fs) b filepath i
      (soundBuffers_ p) w in
  (mk (globalVolume_ p) buffers
      (map_insert i (AudioProperties.default w) (soundProperties_ p))
      (sounds_ p), w).

(** [load(filepath, properties, id)] *)
Definition load_with (b : Build) (fs : FileSystem) (filepath : string)
    (properties : AudioProperties.t) (i : Z)
    (p : t) (w : World) : t * World :=
  let (buffers, w) :=
    ResourceHolder.load (SoundBuffer_loadFromFile fs) b filepath i
      (soundBuffers_ p) w in
  (mk (globalVolume_ p) buffers
      (map_insert i properties (soundProperties_ p))
      (sounds_ p), w).

Definition unload (b : Build) (i : Z) (p : t) (w : World)
  : result (t * World) :=
  match soundProperties_ p !! i, b with
  | None, Debug =>
      Done (p,
            DebugLogger.cacheMessage
              "ae::SoundPlayer<T>::unload - The ID provided isn't associated with any sound effect"
              w)
  | None, Release => Undefined
  | Some _, _ =>
      let props := delete i (soundProperties_ p) in
      let effects := filter (fun e => id e ≠ i) (sounds_ p) in
      match ResourceHolder.unload b i (soundBuffers_ p) w with
      | Undefined => Undefined
      | Done (buffers, w) =>
          Done (mk (globalVolume_ p) buffers props effects, w)
      end
  end.

End SoundPlayer.

(** ** Definitions used by the statements *)

(** A track whose stream is in status [s], everything else kept. *)
Definition track_with_status (s : Status) (track : MusicPlayer.MusicTrack)
  : MusicPlayer.MusicTrack :=
  MusicPlayer.onMusic (Music.onSource (SoundSource.setStatus s)) track.

Definition track_status (track : MusicPlayer.MusicTrack) : Status :=
  Music.getStatus (MusicPlayer.music track).

Definition track_volume (track : MusicPlayer.MusicTrack) : float :=
  SoundSource.volume (Music.source (MusicPlayer.music track)).

(** What [pause(true)] and [pause(false)] are to do to one track. *)
Definition paused_track (track : MusicPlayer.MusicTrack)
  : MusicPlayer.MusicTrack :=
  match track_status track with
  | Playing => track_with_status Paused track
  | _ => track
  end.

Definition resumed_track (track : MusicPlayer.MusicTrack)
  : MusicPlayer.MusicTrack :=
  match track_status track with
  | Paused => track_with_status Playing track
  | _ => track
  end.

(** A player holding one playing track under id 5, and a file system
    without any file. *)
Definition playing_track : MusicPlayer.MusicTrack :=
  track_with_status Playing (MusicPlayer.newTrack (of_Z 100)).

Definition one_track_player : MusicPlayer.t :=
  MusicPlayer.mk (of_Z 100) (<[5%Z := playing_track]> ∅).

Definition no_file : FileSystem := fun _ => false.
Definition every_file : FileSystem := fun _ => true.

(** [globalVolume × nominal / 100], in single precision and in the order
    the players evaluate it. *)
Definition effective_volume (globalVolume nominal : float) : float :=
  div (mul globalVolume nominal) (of_Z 100).

Definition effect_volume (e : SoundPlayer.SoundEffect) : float :=
  SoundSource.volume (Sound.source (SoundPlayer.sound e)).

(** The number of active instances of [i]. *)
Definition active_instances (i : Z) (p : SoundPlayer.t) : nat :=
  length (filter (fun e => SoundPlayer.id e = i) (SoundPlayer.sounds_ p)).

(** Every active instance has a properties entry. *)
Definition instances_have_properties (p : SoundPlayer.t) : Prop :=
  ∀ e, e ∈ SoundPlayer.sounds_ p ->
       is_Some (SoundPlayer.soundProperties_ p !! SoundPlayer.id e).

(** An instance with its volume set from the entry of its id. *)
Definition rescaled (GLOBAL_VOLUME : float)
    (props : gmap Z AudioProperties.t) (e : SoundPlayer.SoundEffect)
  : SoundPlayer.SoundEffect :=
  match props !! SoundPlayer.id e with
  | Some found =>
      SoundPlayer.onSound
        (SoundSource.setVolume
           (effective_volume GLOBAL_VOLUME (AudioProperties.getVolume found)))
        e
  | None => e
  end.

(** The instance [play] is to create for the entry [props] of [i]. *)
Definition new_instance (globalVolume : float) (position : Vector2f)
    (props : AudioProperties.t) (buf : SoundBuffer) (i : Z)
  : SoundPlayer.SoundEffect :=
  SoundPlayer.mkEffect
    (Sound.mk
       (SoundSource.mk Playing
          (effective_volume globalVolume (AudioProperties.getVolume props))
          (mkVector3f (v2x position) (neg (v2y position)) (of_Z 0))
          (AudioProperties.getAttenuation props)
          (AudioProperties.getPitch props)
          (AudioProperties.getMinDistance3D props)
          (AudioProperties.isRelativeToListener props))
       buf)
    i.

(** The scenario of the sound player: global volume 50, effect 7 loaded
    with a nominal volume of 40, then played. *)
Definition scenario_play (b : Build) : result (SoundPlayer.t * World) :=
  let (p, w) := SoundPlayer.construct initialWorld in
  match SoundPlayer.setGlobalVolume b (of_Z 50) p w with
  | Undefined => Undefined
  | Done (p, w) =>
      let properties :=
        AudioProperties.construct (of_Z 40) (of_Z 1) (of_Z 1) (of_Z 1)
          false w in
      let (p, w) :=
        SoundPlayer.load_with b every_file "B.wav" properties 7 p w in
      SoundPlayer.play b 7 p w
  end.

(** A sound player with effect 7 loaded and one instance of it playing. *)
Definition one_sound_player : SoundPlayer.t :=
  match scenario_play Release with
  | Done (p, _) => p
  | Undefined => SoundPlayer.mk (of_Z 100) ∅ ∅ []
  end.

Definition world_300 : World :=
  Listener.setPosition (of_Z 0) (of_Z 0) (of_Z 300) initialWorld.

(** [r] is [v] clamped to the interval from [lo] to [hi]: [lo] when [v]
    is at most [lo], [hi] when [v] is at least [hi], [v] itself when it
    lies strictly between the two, and a value of the interval in every
    case. A [v] that compares equal to a bound is stored as that bound:
    at the bound [0.f], a negative zero is stored as the positive zero. *)
Record clamped (v lo hi r : float) : Prop := mkClamped {
  clamped_below : leb v lo = true -> r = lo;
  clamped_above : leb hi v = true -> r = hi;
  clamped_inside : ltb lo v = true -> ltb v hi = true -> r = v;
  clamped_range : leb lo r = true ∧ leb r hi = true
}.

(** [r] is the greater of [a] and [lo]. *)
Record raised (a lo r : float) : Prop := mkRaised {
  raised_below : ltb a lo = true -> r = lo;
  raised_above : leb lo a = true -> r = a;
  raised_range : leb lo r = true
}.

(** [r] is [a] bounded below by [lo]: [lo] when [a] is at most [lo]
    (a negative zero at the bound [0.f] included), [a] itself when it is
    greater, and at least [lo] in every case. *)
Record bounded_below (a lo r : float) : Prop := mkBoundedBelow {
  bounded_at_most : leb a lo = true -> r = lo;
  bounded_greater : ltb lo a = true -> r = a;
  bounded_range : leb lo r = true
}.

(** The hypotenuse as [setMinDistance2D] computes it. *)
Definition hypotenuse (a b : float) : float :=
  sqrtf (add (mul a a) (mul b b)).

Definition depth (w : World) : float := v3z (Listener.getPosition w).

(** What a program does to its [AudioProperties] objects and to the
    listener. The objects are named by the order of their construction.
    An object gets its members from the constructor with arguments, from
    the copy or the move constructor, or from one of the two assignment
    operators; the setters change one member (two for
    [setMinDistance2D]). The listener is moved by
    [AudioPlayer::setListenerPosition], by the construction of a player,
    and by a direct call of [sf::Listener::setPosition]. *)
Inductive Event : Type :=
| Construct (volume attenuation pitch minDistance2d : float)
    (relativeToListener : bool)
| CopyConstruct (other : nat)
| MoveConstruct (other : nat)
| Assign (this other : nat)
| MoveAssign (this other : nat)
| SetVolume (this : nat) (volume : float)
| SetAttenuation (this : nat) (attenuation : float)
| SetPitch (this : nat) (pitch : float)
| SetRelativeToListener (this : nat) (flag : bool)
| SetMinDistance2D (this : nat) (minDistance2d : float)
| SetListenerPosition (pos : Vector2f)
| NewAudioPlayer
| MoveListener (x y z : float).

(** A member function called on object [this]; there is no such call
    on an object that was not constructed. *)
Definition on_object (this : nat) (f : AudioProperties.t -> AudioProperties.t)
    (objs : list AudioProperties.t) : option (list AudioProperties.t) :=
  p ← objs !! this; Some (<[this := f p]> objs).

Definition step_objects (ev : Event) (w : World)
    (objs : list AudioProperties.t) : option (list AudioProperties.t) :=
  match ev with
  | Construct volume attenuation pitch minDistance2d relativeToListener =>
      Some (objs ++ [AudioProperties.construct volume attenuation pitch
                       minDistance2d relativeToListener w])
  | CopyConstruct other =>
      o ← objs !! other; Some (objs ++ [AudioProperties.copy o])
  | MoveConstruct other =>
      o ← objs !! other; Some (objs ++ [AudioProperties.move o])
  | Assign this other =>
      o ← objs !! other;
      on_object this (AudioProperties.operator_assign o) objs
  | MoveAssign this other =>
      o ← objs !! other;
      on_object this (AudioProperties.operator_move_assign o) objs
  | SetVolume this v => on_object this (AudioProperties.setVolume v) objs
  | SetAttenuation this a =>
      on_object this (AudioProperties.setAttenuation a) objs
  | SetPitch this x => on_object this (AudioProperties.setPitch x) objs
  | SetRelativeToListener this f =>
      on_object this (AudioProperties.setRelativeToListener f) objs
  | SetMinDistance2D this d =>
      on_object this (AudioProperties.setMinDistance2D d w) objs
  | SetListenerPosition _ | NewAudioPlayer | MoveListener _ _ _ => Some objs
  end.

Definition step_world (ev : Event) (w : World) : World :=
  match ev with
  | SetListenerPosition pos => AudioPlayer.setListenerPosition pos w
  | NewAudioPlayer => (AudioPlayer.construct w).2
  | MoveListener x y z => Listener.setPosition x y z w
  | _ => w
  end.

(** The objects and the state of the process after the events, for a
    sequence of events that only names constructed objects. *)
Fixpoint run (evs : list Event) (objs : list AudioProperties.t) (w : World)
  : option (list AudioProperties.t * World) :=
  match evs with
  | [] => Some (objs, w)
  | ev :: rest =>
      objs' ← step_objects ev w objs; run rest objs' (step_world ev w)
  end.

(** For each object, the depth the listener had when the 2D distance
    the object holds was assigned: by the constructor with arguments or
    by [setMinDistance2D], called on the object itself or, when the
    object was constructed or assigned from another one since, on the
    object its members come from. *)
Definition step_depths (ev : Event) (w : World) (zs : list float)
  : list float :=
  match ev with
  | Construct _ _ _ _ _ => zs ++ [depth w]
  | CopyConstruct other | MoveConstruct other =>
      match zs !! other with
      | Some z => zs ++ [z]
      | None => zs
      end
  | Assign this other | MoveAssign this other =>
      match zs !! other with
      | Some z => <[this := z]> zs
      | None => zs
      end
  | SetMinDistance2D this _ => <[this := depth w]> zs
  | _ => zs
  end.

Fixpoint assignment_depths (evs : list Event) (w : World) (zs : list float)
  : list float :=
  match evs with
  | [] => zs
  | ev :: rest =>
      assignment_depths rest (step_world ev w) (step_depths ev w zs)
  end.

(** The 3D distance [p] stores is the hypotenuse of the 2D distance it
    stores and of the depth [z]. *)
Definition stored_for_depth (p : AudioProperties.t) (z : float) : Prop :=
  AudioProperties.getMinDistance3D p
  = hypotenuse (AudioProperties.getMinDistance2D p) z.

(** The invariant as the data model words it: the stored 3D distance
    is the hypotenuse of the stored 2D distance and the present depth of
    the listener. *)
Definition follows_listener (s : AudioProperties.t * World) : Prop :=
  AudioProperties.getMinDistance3D s.1
  = hypotenuse (AudioProperties.getMinDistance2D s.1) (depth s.2).

(** A program, for a process that has a player already: it constructs
    a properties object with a 2D distance of 250, moves the listener,
    constructs a second player, copies the object, sets the 2D distance
    of the copy to 40 and its volume to 65, and assigns the copy to the
    first object. *)
Definition distances_program : list Event :=
  [Construct (of_Z 100) (of_Z 1) (of_Z 1) (of_Z 250) false;
   SetListenerPosition (mkVector2f (of_Z 10) (of_Z 20));
   NewAudioPlayer;
   CopyConstruct 0;
   SetMinDistance2D 1 (of_Z 40);
   SetVolume 1 (of_Z 65);
   Assign 0 1].

(** The binomial coefficient C(n, k), by the rule of Pascal. *)
Fixpoint binomial (n k : nat) : Z :=
  match n, k with
  | _, O => 1
  | O, S _ => 0
  | S n', S k' => binomial n' k' + binomial n' k
  end.

(** Row [n] of the triangle: C(n, 0), ..., C(n, n). *)
Definition binomial_row (n : nat) : list Z := binomial n <$> seq 0 (S n).

(** The row with the entries up to index [k] filled in and the others
    still 0. *)
Definition binomial_row_upto (n k : nat) : list Z :=
  (fun j => if decide (j ≤ k) then binomial n j else 0%Z) <$> seq 0 (S n).

(** The rows computed one from the other: each entry is the sum of the
    two entries above it. *)
Definition pascal_next (row : list Z) : list Z :=
  zip_with Z.add (0%Z :: row) (row ++ [0%Z]).

Fixpoint pascal_row (n : nat) : list Z :=
  match n with
  | O => [1%Z]
  | S n' => pascal_next (pascal_row n')
  end.

(** Several messages cached one after the other. *)
Definition cacheMessages (messages : list string) (w : World) : World :=
  foldl (fun w message => DebugLogger.cacheMessage message w) w messages.

Definition track_position (track : MusicPlayer.MusicTrack) : Vector3f :=
  SoundSource.position (Music.source (MusicPlayer.music track)).

Definition effect_status (e : SoundPlayer.SoundEffect) : Status :=
  Sound.getStatus (SoundPlayer.sound e).

Definition effect_position (e : SoundPlayer.SoundEffect) : Vector3f :=
  SoundSource.position (Sound.source (SoundPlayer.sound e)).

(** The point of the audio scene a 2D source at the listener is given:
    the listener's own x and y, at depth 0. *)
Definition under_listener (w : World) : Vector3f :=
  mkVector3f (v3x (Listener.getPosition w)) (v3y (Listener.getPosition w))
    (of_Z 0).

(** A listener moved to (10, 20) by [setListenerPosition], at the depth
    of 300 the first player gave it. *)
Definition world_listener_moved : World :=
  AudioPlayer.setListenerPosition (mkVector2f (of_Z 10) (of_Z 20)) world_300.

(** The player with track 5 after that track was played at (3, 4). *)
Definition far_track_player : MusicPlayer.t :=
  match MusicPlayer.play_at Release (mkVector2f (of_Z 3) (of_Z 4)) 5 false
          one_track_player world_300 with
  | Done (p, _) => p
  | Undefined => one_track_player
  end.

(** The sound player with effect 7 loaded and one instance of it for
    each of the statuses, in their order. *)
Definition sound_player_with (statuses : list Status) : SoundPlayer.t :=
  SoundPlayer.mk (SoundPlayer.globalVolume_ one_sound_player)
    (SoundPlayer.soundBuffers_ one_sound_player)
    (SoundPlayer.soundProperties_ one_sound_player)
    (e ← SoundPlayer.sounds_ one_sound_player;
     (fun s => SoundPlayer.onSound (SoundSource.setStatus s) e) <$> statuses).

(** The track [setupTrack] leaves after it opened [filepath] on
    [track]: the stream stopped and bound to the file, the four spatial
    parameters taken from [properties], volume, position, loop flag and
    nominal volume kept. *)
Definition opened_track (properties : AudioProperties.t) (filepath : string)
    (track : MusicPlayer.MusicTrack) : MusicPlayer.MusicTrack :=
  let m := MusicPlayer.music track in
  MusicPlayer.mkTrack
    (Music.mk
       (SoundSource.mk Stopped
          (SoundSource.volume (Music.source m))
          (SoundSource.position (Music.source m))
          (AudioProperties.getAttenuation properties)
          (AudioProperties.getPitch properties)
          (AudioProperties.getMinDistance3D properties)
          (AudioProperties.isRelativeToListener properties))
       (Music.loop m) (Some filepath))
    (MusicPlayer.VOLUME track).

(** What [pause(true)] followed by [pause(false)] does to a track. *)
Definition resumed_after_pause (track : MusicPlayer.MusicTrack)
  : MusicPlayer.MusicTrack :=
  match track_status track with
  | Stopped => track
  | _ => track_with_status Playing track
  end.

(** The states a sound player goes through: a new player, then any of
    its operations that returns, and instances that finish playing or
    are otherwise moved to another status by the audio engine. *)
Inductive reachable : SoundPlayer.t -> Prop :=
| reach_construct (w : World) :
    reachable (SoundPlayer.construct w).1
| reach_load (b : Build) (fs : FileSystem) (filepath : string) (i : Z)
    (p : SoundPlayer.t) (w : World) :
    reachable p -> reachable (SoundPlayer.load b fs filepath i p w).1
| reach_load_with (b : Build) (fs : FileSystem) (filepath : string)
    (properties : AudioProperties.t) (i : Z) (p : SoundPlayer.t) (w : World) :
    reachable p ->
    reachable (SoundPlayer.load_with b fs filepath properties i p w).1
| reach_play (b : Build) (position : Vector2f) (i : Z)
    (p p' : SoundPlayer.t) (w w' : World) :
    reachable p ->
    SoundPlayer.play_at b position i p w = Done (p', w') ->
    reachable p'
| reach_pause (flag : bool) (p : SoundPlayer.t) :
    reachable p -> reachable (SoundPlayer.pause flag p)
| reach_stop (p : SoundPlayer.t) :
    reachable p -> reachable (SoundPlayer.stop p)
| reach_setGlobalVolume (b : Build) (v : float)
    (p p' : SoundPlayer.t) (w w' : World) :
    reachable p ->
    SoundPlayer.setGlobalVolume b v p w = Done (p', w') ->
    reachable p'
| reach_unload (b : Build) (i : Z) (p p' : SoundPlayer.t) (w w' : World) :
    reachable p ->
    SoundPlayer.unload b i p w = Done (p', w') ->
    reachable p'
| reach_engine (statuses : list Status) (p : SoundPlayer.t) :
    length statuses = length (SoundPlayer.sounds_ p) ->
    reachable p ->
    reachable
      (SoundPlayer.mk (SoundPlayer.globalVolume_ p)
         (SoundPlayer.soundBuffers_ p) (SoundPlayer.soundProperties_ p)
         (zip_with (fun s e => SoundPlayer.onSound (SoundSource.setStatus s) e)
            statuses (SoundPlayer.sounds_ p))).

(** The row the second loop of [pascalTriangle] has produced from
    [row1] once it has written the indices above [h] up to [k]: those
    entries mirror the entries of [row1] on the other side. *)
Definition mirrored (row1 : list Z) (n h k : nat) : list Z :=
  (fun j => if decide (h < j ≤ k)
            then default 0%Z (row1 !! (n - j))
            else default 0%Z (row1 !! j)) <$> seq 0 (S n).

(** * Properties *)

(** ** std::map helpers *)

Section StdMap.

Context {V : Type}.
Implicit Types (m : gmap Z V) (k : Z) (v : V).

Lemma map_insert_fresh m k v :
  m !! k = None -> map_insert k v m = <[k := v]> m.
Proof. intros H. unfold map_insert. by rewrite H. Qed.


Lemma foldr_greater_entry (l : list (Z * V)) :
  match foldr greater_entry None l with
  | None => l = []
  | Some a => a ∈ l ∧ ∀ e, e ∈ l -> (e.1 <= a.1)%Z
  end.
Proof.
  induction l as [|e l IH]; simpl; [done|].
  destruct (foldr greater_entry None l) as [a|]; simpl.
  - destruct IH as [Ha Hmax].
    destruct (Z.ltb_spec a.1 e.1) as [Hlt|Hge].
    + split; [left|]. intros e' [->|He']%elem_of_cons; [lia|].
      specialize (Hmax e' He'). lia.
    + split; [by right|]. intros e' [->|He']%elem_of_cons; [lia|].
      by apply Hmax.
  - subst l. split; [left|]. intros e' He'.
    apply list_elem_of_singleton in He'. subst e'. lia.
Qed.

Lemma rbegin_empty : rbegin (∅ : gmap Z V) = None.
Proof. unfold rbegin. by rewrite map_to_list_empty. Qed.

(** [rbegin] is an entry of the map and no key is greater. *)
Lemma rbegin_Some m k v :
  rbegin m = Some (k, v) ->
  m !! k = Some v ∧ ∀ j, is_Some (m !! j) -> (j <= k)%Z.
Proof.
  unfold rbegin. intros H.
  pose proof (foldr_greater_entry (map_to_list m)) as Hspec.
  rewrite H in Hspec. destruct Hspec as [Hin Hmax]. split.
  - by apply elem_of_map_to_list in Hin.
  - intros j [x Hx]. apply elem_of_map_to_list in Hx.
    apply (Hmax (j, x) Hx).
Qed.

Lemma rbegin_None m : rbegin m = None -> m = ∅.
Proof.
  unfold rbegin. intros H.
  pose proof (foldr_greater_entry (map_to_list m)) as Hspec.
  rewrite H in Hspec. by apply map_to_list_empty_iff.
Qed.

(** Inserting a key above every key of the map makes it the last. *)
Lemma rbegin_insert_greatest m k v :
  (∀ j, is_Some (m !! j) -> (j < k)%Z) ->
  rbegin (<[k := v]> m) = Some (k, v).
Proof.
  intros Habove.
  destruct (rbegin (<[k := v]> m)) as [[k' v']|] eqn:E.
  - apply rbegin_Some in E as [Hk' Hmax].
    assert (k <= k')%Z as Hle.
    { apply Hmax. rewrite lookup_insert_eq. by eexists. }
    destruct (decide (k = k')) as [<-|Hne].
    + rewrite lookup_insert_eq in Hk'. by simplify_eq.
    + rewrite lookup_insert_ne in Hk' by done.
      assert (k' < k)%Z by (apply Habove; by eexists). lia.
  - apply rbegin_None in E.
    apply (f_equal (fun m' => m' !! k)) in E.
    by rewrite lookup_insert_eq, lookup_empty in E.
Qed.

End StdMap.

(** ** ResourceHolder *)

(** C8. When the resource cannot be constructed from the file, each of
    the three [load] overloads leaves the resource map as it was and
    returns normally; a debug build appends one message to the debug
    log, a release build leaves the log alone. *)
Theorem ResourceHolder_load_failure_stores_nothing
    {Res T K : Type}
    (loadFromFile : string -> option Res)
    (loadFromFile1 : string -> T -> option Res)
    (loadFromFile2 : string -> T -> K -> option Res)
    (b : Build) (filepath : string) (t : T) (k : K) (id : Z)
    (resourceMap_ : gmap Z Res) (w : World) :
  (loadFromFile filepath = None ->
   ∃ w', ResourceHolder.load loadFromFile b filepath id resourceMap_ w
         = (resourceMap_, w')
      ∧ listenerPosition w' = listenerPosition w
      ∧ messages_ w' =
          match b with
          | Debug =>
              messages_ w ++
                [("ae::ResourceHolder::load - Failed to load " ++ dquote
                    ++ filepath ++ dquote)%string]
          | Release => messages_ w
          end)
  ∧ (loadFromFile1 filepath t = None ->
     ∃ w', ResourceHolder.load1 loadFromFile1 b filepath t id resourceMap_ w
           = (resourceMap_, w')
        ∧ listenerPosition w' = listenerPosition w
        ∧ messages_ w' =
            match b with
            | Debug =>
                messages_ w ++
                  [("ae::ResourceHolder::load<T> - Failed to load " ++ dquote
                      ++ filepath ++ dquote)%string]
            | Release => messages_ w
            end)
  ∧ (loadFromFile2 filepath t k = None ->
     ∃ w', ResourceHolder.load2 loadFromFile2 b filepath t k id resourceMap_ w
           = (resourceMap_, w')
        ∧ listenerPosition w' = listenerPosition w
        ∧ messages_ w' =
            match b with
            | Debug =>
                messages_ w ++
                  [("ae::ResourceHolder::load<T,K> - Failed to load " ++ dquote
                      ++ filepath ++ dquote)%string]
            | Release => messages_ w
            end).
Proof.
  unfold ResourceHolder.load, ResourceHolder.load1, ResourceHolder.load2.
  repeat split; intros ->; eexists; (split; [reflexivity|]);
    by destruct b.
Qed.

(** A holder of buffers, no file on the disk. *)
Lemma ResourceHolder_load_failure_witness :
  ∃ w',
    ResourceHolder.load (SoundBuffer_loadFromFile (fun _ => false)) Debug
      "missing.wav" 1 (<[2%Z := mkSoundBuffer "a.wav"]> ∅) initialWorld
    = (<[2%Z := mkSoundBuffer "a.wav"]> ∅, w')
    ∧ listenerPosition w' = listenerPosition initialWorld
    ∧ messages_ w' =
        [("ae::ResourceHolder::load - Failed to load " ++ dquote
            ++ "missing.wav" ++ dquote)%string].
Proof.
  destruct (ResourceHolder_load_failure_stores_nothing
              (SoundBuffer_loadFromFile (fun _ => false))
              (fun (_ : string) (_ : unit) => @None SoundBuffer)
              (fun (_ : string) (_ _ : unit) => @None SoundBuffer)
              Debug "missing.wav" tt tt 1
              (<[2%Z := mkSoundBuffer "a.wav"]> ∅) initialWorld)
    as [H _].
  apply H. reflexivity.
Defined.

(** ** MusicPlayer: loading *)

(** C4. Loading under an id that is already loaded, through either
    overload, returns the player as it was (the first track is neither
    replaced nor duplicated); a debug build logs one message. *)
Theorem MusicPlayer_load_loaded_id_is_noop
    (b : Build) (fs : FileSystem) (filepath : string)
    (properties : AudioProperties.t) (id : Z)
    (p : MusicPlayer.t) (w : World) :
  is_Some (MusicPlayer.tracks_ p !! id) ->
  let w' :=
    debugMessage b
      "ae::MusicPlayer<T>::load - Attempt to load in music track that's already loaded in"
      w in
  MusicPlayer.load b fs filepath id p w = Done (p, w')
  ∧ MusicPlayer.load_with b fs filepath properties id p w = Done (p, w').
Proof.
  intros [track H]. unfold MusicPlayer.load, MusicPlayer.load_with.
  by rewrite H.
Qed.

Lemma MusicPlayer_load_loaded_id_witness :
  MusicPlayer.load Debug every_file "other.ogg" 5 one_track_player initialWorld
  = Done (one_track_player,
          DebugLogger.cacheMessage
            "ae::MusicPlayer<T>::load - Attempt to load in music track that's already loaded in"
            initialWorld)
  ∧ MusicPlayer.load_with Debug every_file "other.ogg"
      (AudioProperties.default initialWorld) 5 one_track_player initialWorld
  = Done (one_track_player,
          DebugLogger.cacheMessage
            "ae::MusicPlayer<T>::load - Attempt to load in music track that's already loaded in"
            initialWorld).
Proof.
  apply (MusicPlayer_load_loaded_id_is_noop Debug every_file "other.ogg"
           (AudioProperties.default initialWorld) 5 one_track_player
           initialWorld).
  exists playing_track. reflexivity.
Defined.

(** The roll-back of [setupTrack] undoes the insertion when the new id
    is above every loaded id, the case in which [rbegin()] is the new
    entry. *)
Lemma MusicPlayer_load_failure_rolls_back_last
    (b : Build) (fs : FileSystem) (filepath : string)
    (properties : AudioProperties.t) (id : Z)
    (p : MusicPlayer.t) (w : World) :
  (∀ j, is_Some (MusicPlayer.tracks_ p !! j) -> (j < id)%Z) ->
  fs filepath = false ->
  ∃ w', MusicPlayer.load_with b fs filepath properties id p w = Done (p, w')
        ∧ MusicPlayer.load b fs filepath id p w = Done (p, w').
Proof.
  intros Habove Hfs.
  assert (MusicPlayer.tracks_ p !! id = None) as Hfresh.
  { destruct (MusicPlayer.tracks_ p !! id) eqn:E; [|done].
    assert (id < id)%Z by (apply Habove; by eexists). lia. }
  unfold MusicPlayer.load, MusicPlayer.load_with, MusicPlayer.setupTrack.
  rewrite Hfresh. simpl.
  rewrite !map_insert_fresh by done.
  rewrite !rbegin_insert_greatest by done.
  unfold Music.openFromFile. rewrite Hfs.
  rewrite !delete_insert_id by done. destruct p. by eexists.
Qed.

(** C2. A player holding a track under id 5 loads an unopenable file
    under the fresh id 3, in either build and through either overload:
    [rbegin()] is the entry of id 5, so the track of id 5 is the one
    erased and the entry inserted for id 3 stays. *)
Theorem MusicPlayer_load_failure_erases_last_entry (b : Build) :
  MusicPlayer.tracks_ one_track_player !! 3%Z = None
  ∧ no_file "missing.ogg" = false
  ∧ (∃ p' w',
       MusicPlayer.load b no_file "missing.ogg" 3 one_track_player
         initialWorld = Done (p', w')
       ∧ MusicPlayer.tracks_ p' !! 3%Z
         = Some (MusicPlayer.newTrack (of_Z 100))
       ∧ MusicPlayer.tracks_ p' !! 5%Z = None
       ∧ MusicPlayer.tracks_ p' ≠ MusicPlayer.tracks_ one_track_player)
  ∧ (∃ p' w',
       MusicPlayer.load_with b no_file "missing.ogg"
         (AudioProperties.default initialWorld) 3 one_track_player
         initialWorld = Done (p', w')
       ∧ MusicPlayer.tracks_ p' !! 3%Z
         = Some (MusicPlayer.newTrack (of_Z 100))
       ∧ MusicPlayer.tracks_ p' !! 5%Z = None
       ∧ MusicPlayer.tracks_ p' ≠ MusicPlayer.tracks_ one_track_player).
Proof.
  split; [reflexivity|]. split; [reflexivity|].
  split; destruct b; eexists _, _;
    (split; [vm_compute; reflexivity|]);
    (split; [reflexivity|]); (split; [reflexivity|]);
    intros H; apply (f_equal (fun m => m !! 5%Z)) in H; vm_compute in H;
    discriminate H.
Qed.

(** ** MusicPlayer: pausing *)

Lemma pauseTrack_paused_track track :
  MusicPlayer.pauseTrack track = paused_track track.
Proof.
  destruct track as [[[[] ? ? ? ? ? ?] l f] V]; reflexivity.
Qed.

Lemma resumeTrack_resumed_track track :
  MusicPlayer.resumeTrack track = resumed_track track.
Proof.
  destruct track as [[[[] ? ? ? ? ? ?] l f] V]; reflexivity.
Qed.

Lemma pause_id_track (flag : bool) (track : MusicPlayer.MusicTrack) :
  MusicPlayer.mkTrack
    (let m := MusicPlayer.music track in
     if flag && bool_decide (Music.getStatus m = Playing)
     then Music.onSource SoundSource.pause m
     else if negb flag && bool_decide (Music.getStatus m = Paused)
     then Music.onSource SoundSource.play m
     else m)
    (MusicPlayer.VOLUME track)
  = if flag then paused_track track else resumed_track track.
Proof.
  destruct track as [[src l f] V].
  unfold paused_track, resumed_track, track_status, track_with_status,
    Music.getStatus, SoundSource.getStatus, SoundSource.pause,
    SoundSource.play, MusicPlayer.onMusic, Music.onSource.
  simpl. destruct flag, src as [[] ? ? ? ? ? ?]; reflexivity.
Qed.

(** C6. [pause(true)] turns every playing track into a paused one and
    [pause(false)] every paused track into a playing one; a track in
    another status, and every other field of every track, is returned
    unchanged, and no entry appears or disappears. [pause(id, flag)]
    does the same to the track of [id] and leaves the other entries as
    they were. *)
Theorem MusicPlayer_pause_only_playing_resume_only_paused
    (b : Build) (p : MusicPlayer.t) (w : World) (id : Z) (flag : bool) :
  MusicPlayer.tracks_ (MusicPlayer.pause true p) !! id
    = paused_track <$> MusicPlayer.tracks_ p !! id
  ∧ MusicPlayer.tracks_ (MusicPlayer.pause false p) !! id
    = resumed_track <$> MusicPlayer.tracks_ p !! id
  ∧ MusicPlayer.globalVolume_ (MusicPlayer.pause flag p)
    = MusicPlayer.globalVolume_ p
  ∧ ∀ track, MusicPlayer.tracks_ p !! id = Some track ->
      ∃ p', MusicPlayer.pause_id b id flag p w = Done (p', w)
        ∧ MusicPlayer.tracks_ p' !! id
          = Some (if flag then paused_track track else resumed_track track)
        ∧ (∀ j, j ≠ id ->
             MusicPlayer.tracks_ p' !! j = MusicPlayer.tracks_ p !! j)
        ∧ MusicPlayer.globalVolume_ p' = MusicPlayer.globalVolume_ p.
Proof.
  repeat split.
  - simpl. rewrite lookup_fmap.
    destruct (MusicPlayer.tracks_ p !! id); simpl; [|done].
    by rewrite pauseTrack_paused_track.
  - simpl. rewrite lookup_fmap.
    destruct (MusicPlayer.tracks_ p !! id); simpl; [|done].
    by rewrite resumeTrack_resumed_track.
  - by destruct flag.
  - intros track Htrack. unfold MusicPlayer.pause_id. rewrite Htrack.
    eexists. split; [reflexivity|]. simpl. repeat split.
    + rewrite lookup_insert_eq. f_equal. apply pause_id_track.
    + intros j Hj. by rewrite lookup_insert_ne.
Qed.

(** The statuses behave as the names say. *)
Lemma paused_track_status track :
  track_status (paused_track track)
  = match track_status track with Playing => Paused | s => s end.
Proof.
  unfold paused_track. by destruct (track_status track) eqn:E.
Qed.

Lemma resumed_track_status track :
  track_status (resumed_track track)
  = match track_status track with Paused => Playing | s => s end.
Proof.
  unfold resumed_track. by destruct (track_status track) eqn:E.
Qed.

Lemma MusicPlayer_pause_witness :
  ∃ p', MusicPlayer.pause_id Release 5 true one_track_player initialWorld
        = Done (p', initialWorld)
    ∧ MusicPlayer.tracks_ p' !! 5%Z = Some (paused_track playing_track)
    ∧ (∀ j, j ≠ 5%Z ->
         MusicPlayer.tracks_ p' !! j
         = MusicPlayer.tracks_ one_track_player !! j)
    ∧ MusicPlayer.globalVolume_ p'
      = MusicPlayer.globalVolume_ one_track_player.
Proof.
  destruct (MusicPlayer_pause_only_playing_resume_only_paused
              Release one_track_player initialWorld 5 true)
    as (_ & _ & _ & H).
  apply (H playing_track). reflexivity.
Defined.

(** ** SoundPlayer *)

Lemma rescaleAll_all_found (b : Build) (G : float)
    (props : gmap Z AudioProperties.t)
    (effects : list SoundPlayer.SoundEffect) :
  (∀ e, e ∈ effects -> is_Some (props !! SoundPlayer.id e)) ->
  SoundPlayer.rescaleAll b G props effects
  = Done (rescaled G props <$> effects, true).
Proof.
  induction effects as [|e rest IH]; intros Hall; [done|].
  destruct (Hall e) as [found Hfound]; [left|].
  cbn [SoundPlayer.rescaleAll fmap list_fmap].
  rewrite Hfound, IH by (intros e' He'; apply Hall; by right).
  unfold rescaled at 2. rewrite Hfound. by destruct b.
Qed.

Lemma SoundPlayer_setGlobalVolume_all_found (b : Build) (v : float)
    (p : SoundPlayer.t) (w : World) :
  instances_have_properties p ->
  SoundPlayer.setGlobalVolume b v p w
  = Done (SoundPlayer.mk (AudioPlayer.setGlobalVolume v)
            (SoundPlayer.soundBuffers_ p) (SoundPlayer.soundProperties_ p)
            (rescaled (AudioPlayer.setGlobalVolume v)
                      (SoundPlayer.soundProperties_ p)
               <$> SoundPlayer.sounds_ p),
          w).
Proof.
  intros Hwf. unfold SoundPlayer.setGlobalVolume.
  by rewrite rescaleAll_all_found.
Qed.

Lemma SoundPlayer_play_at_loaded (b : Build) (position : Vector2f) (i : Z)
    (p : SoundPlayer.t) (w : World)
    (props : AudioProperties.t) (buf : SoundBuffer) :
  SoundPlayer.soundProperties_ p !! i = Some props ->
  SoundPlayer.soundBuffers_ p !! i = Some buf ->
  SoundPlayer.play_at b position i p w
  = Done (SoundPlayer.mk (SoundPlayer.globalVolume_ p)
            (SoundPlayer.soundBuffers_ p) (SoundPlayer.soundProperties_ p)
            (SoundPlayer.sounds_ (SoundPlayer.removeStoppedSounds p)
               ++ [new_instance (SoundPlayer.globalVolume_ p) position
                     props buf i]),
          w).
Proof.
  intros Hprops Hbuf.
  unfold SoundPlayer.play_at, ResourceHolder.get. simpl.
  rewrite Hprops, Hbuf. by destruct b.
Qed.

(** The operations keep [instances_have_properties], which holds of a
    new player. *)
Lemma instances_have_properties_construct (w : World) :
  instances_have_properties (SoundPlayer.construct w).1.
Proof. intros e He. simpl in He. by apply elem_of_nil in He. Qed.

Lemma instances_have_properties_load (b : Build) (fs : FileSystem)
    (filepath : string) (properties : AudioProperties.t) (i : Z)
    (p : SoundPlayer.t) (w : World) :
  instances_have_properties p ->
  instances_have_properties (SoundPlayer.load b fs filepath i p w).1
  ∧ instances_have_properties
      (SoundPlayer.load_with b fs filepath properties i p w).1.
Proof.
  intros Hwf. unfold SoundPlayer.load, SoundPlayer.load_with.
  destruct (ResourceHolder.load _ b filepath i _ w) as [buffers w'].
  split; intros e He; simpl in *; specialize (Hwf e He);
    unfold map_insert; destruct (SoundPlayer.soundProperties_ p !! i) eqn:E;
    try done;
    (destruct (decide (i = SoundPlayer.id e)) as [->|Hne];
     [rewrite lookup_insert_eq; by eexists | by rewrite lookup_insert_ne]).
Qed.

Lemma instances_have_properties_play (b : Build) (position : Vector2f)
    (i : Z) (p p' : SoundPlayer.t) (w w' : World) :
  instances_have_properties p ->
  SoundPlayer.play_at b position i p w = Done (p', w') ->
  instances_have_properties p'.
Proof.
  intros Hwf. unfold SoundPlayer.play_at, ResourceHolder.get. simpl.
  assert (∀ e, e ∈ filter
                 (fun e => Sound.getStatus (SoundPlayer.sound e) ≠ Stopped)
                 (SoundPlayer.sounds_ p) ->
               is_Some (SoundPlayer.soundProperties_ p !! SoundPlayer.id e))
    as Hkept.
  { intros e [_ He]%list_elem_of_filter. by apply Hwf. }
  destruct (SoundPlayer.soundProperties_ p !! i) as [props|] eqn:Ep.
  - destruct (SoundPlayer.soundBuffers_ p !! i) as [buf|] eqn:Eb.
    + intros H. assert (p' = SoundPlayer.mk (SoundPlayer.globalVolume_ p)
            (SoundPlayer.soundBuffers_ p) (SoundPlayer.soundProperties_ p)
            (SoundPlayer.sounds_ (SoundPlayer.removeStoppedSounds p)
               ++ [new_instance (SoundPlayer.globalVolume_ p) position
                     props buf i])) as ->.
      { destruct b; by simplify_eq. }
      intros e [He| ->%list_elem_of_singleton]%elem_of_app; simpl.
      * by apply Hkept.
      * by eexists.
    + destruct b; discriminate.
  - destruct b; [|discriminate]. intros H. simplify_eq.
    intros e He. by apply Hkept.
Qed.

Lemma instances_have_properties_unload (b : Build) (i : Z)
    (p p' : SoundPlayer.t) (w w' : World) :
  instances_have_properties p ->
  SoundPlayer.unload b i p w = Done (p', w') ->
  instances_have_properties p'.
Proof.
  intros Hwf. unfold SoundPlayer.unload.
  destruct (SoundPlayer.soundProperties_ p !! i) as [props|] eqn:Ep.
  - destruct (ResourceHolder.unload b i _ w) as [[buffers w1]|] eqn:Eu.
    + intros H. assert (p' = SoundPlayer.mk (SoundPlayer.globalVolume_ p)
            buffers (delete i (SoundPlayer.soundProperties_ p))
            (filter (fun e => SoundPlayer.id e ≠ i) (SoundPlayer.sounds_ p)))
        as ->.
      { destruct b; by simplify_eq. }
      intros e [Hne He]%list_elem_of_filter. simpl.
      rewrite lookup_delete_ne by done. by apply Hwf.
    + destruct b; discriminate.
  - destruct b; [|discriminate]. intros H. by simplify_eq.
Qed.

Lemma instances_have_properties_pause (flag : bool) (p : SoundPlayer.t) :
  instances_have_properties p ->
  instances_have_properties (SoundPlayer.pause flag p).
Proof.
  intros Hwf e. unfold SoundPlayer.pause. simpl.
  destruct flag; intros (e0 & -> & He0)%list_elem_of_fmap.
  - simpl. by apply Hwf.
  - unfold SoundPlayer.resumeEffect. case_decide; simpl; by apply Hwf.
Qed.

Lemma instances_have_properties_stop (p : SoundPlayer.t) :
  instances_have_properties p ->
  instances_have_properties (SoundPlayer.stop p).
Proof.
  intros Hwf e. unfold SoundPlayer.stop, SoundPlayer.removeStoppedSounds.
  simpl. intros [_ (e0 & -> & He0)%list_elem_of_fmap]%list_elem_of_filter.
  simpl. by apply Hwf.
Qed.

Lemma rescaled_id G props e :
  SoundPlayer.id (rescaled G props e) = SoundPlayer.id e.
Proof. unfold rescaled. by destruct (props !! SoundPlayer.id e). Qed.

Lemma instances_have_properties_setGlobalVolume (b : Build) (v : float)
    (p p' : SoundPlayer.t) (w w' : World) :
  instances_have_properties p ->
  SoundPlayer.setGlobalVolume b v p w = Done (p', w') ->
  instances_have_properties p'.
Proof.
  intros Hwf. rewrite SoundPlayer_setGlobalVolume_all_found by done.
  intros H. simplify_eq. intros e. simpl.
  intros (e0 & -> & He0)%list_elem_of_fmap. rewrite rescaled_id.
  by apply Hwf.
Qed.

(** C7. Unloading a loaded id (properties and buffer present) succeeds
    in both builds, erases the properties entry and the buffer of the
    id, keeps the other entries, and drops from the active list exactly
    the instances of the id, whatever their status: none is left. *)
Theorem SoundPlayer_unload_removes_properties_instances_buffer
    (b : Build) (i : Z) (p : SoundPlayer.t) (w : World)
    (props : AudioProperties.t) (buf : SoundBuffer) :
  SoundPlayer.soundProperties_ p !! i = Some props ->
  SoundPlayer.soundBuffers_ p !! i = Some buf ->
  ∃ p', SoundPlayer.unload b i p w = Done (p', w)
    ∧ SoundPlayer.soundProperties_ p' !! i = None
    ∧ SoundPlayer.soundBuffers_ p' !! i = None
    ∧ active_instances i p' = 0
    ∧ (∀ e, e ∈ SoundPlayer.sounds_ p'
            ↔ e ∈ SoundPlayer.sounds_ p ∧ SoundPlayer.id e ≠ i)
    ∧ SoundPlayer.soundProperties_ p'
      = delete i (SoundPlayer.soundProperties_ p)
    ∧ SoundPlayer.soundBuffers_ p' = delete i (SoundPlayer.soundBuffers_ p)
    ∧ SoundPlayer.sounds_ p'
      = filter (fun e => SoundPlayer.id e ≠ i) (SoundPlayer.sounds_ p)
    ∧ SoundPlayer.globalVolume_ p' = SoundPlayer.globalVolume_ p.
Proof.
  intros Hprops Hbuf. unfold SoundPlayer.unload, ResourceHolder.unload.
  rewrite Hprops, Hbuf. eexists. split; [by destruct b|]. simpl.
  split; [apply lookup_delete_eq|]. split; [apply lookup_delete_eq|].
  split.
  - unfold active_instances. simpl.
    destruct (filter _ (filter _ _)) as [|e l] eqn:E; [done|].
    assert (e ∈ e :: l) as He by left. rewrite <- E in He.
    apply list_elem_of_filter in He as [Heq He].
    apply list_elem_of_filter in He as [Hne _]. done.
  - split; [|done]. intros e. rewrite list_elem_of_filter. tauto.
Qed.

Lemma SoundPlayer_unload_witness :
  ∃ p', SoundPlayer.unload Release 7 one_sound_player world_300
        = Done (p', world_300)
    ∧ SoundPlayer.soundProperties_ p' !! 7%Z = None
    ∧ SoundPlayer.soundBuffers_ p' !! 7%Z = None
    ∧ active_instances 7 p' = 0
    ∧ (∀ e, e ∈ SoundPlayer.sounds_ p'
            ↔ e ∈ SoundPlayer.sounds_ one_sound_player
              ∧ SoundPlayer.id e ≠ 7%Z)
    ∧ SoundPlayer.soundProperties_ p'
      = delete 7%Z (SoundPlayer.soundProperties_ one_sound_player)
    ∧ SoundPlayer.soundBuffers_ p'
      = delete 7%Z (SoundPlayer.soundBuffers_ one_sound_player)
    ∧ SoundPlayer.sounds_ p'
      = filter (fun e => SoundPlayer.id e ≠ 7%Z)
          (SoundPlayer.sounds_ one_sound_player)
    ∧ SoundPlayer.globalVolume_ p'
      = SoundPlayer.globalVolume_ one_sound_player.
Proof.
  apply (SoundPlayer_unload_removes_properties_instances_buffer
           Release 7 one_sound_player world_300
           (AudioProperties.construct (of_Z 40) (of_Z 1) (of_Z 1) (of_Z 1)
              false world_300)
           (mkSoundBuffer "B.wav")).
  - vm_compute. reflexivity.
  - vm_compute. reflexivity.
Defined.

(** One instance of effect 7 is active before the unloading above. *)
Example one_sound_player_active :
  active_instances 7 one_sound_player = 1.
Proof. vm_compute. reflexivity. Qed.

(** In a debug build the unloading completes even when the buffer of
    the id was never stored (its file could not be loaded): the holder
    logs the missing resource. *)
Lemma SoundPlayer_unload_debug_without_buffer
    (i : Z) (p : SoundPlayer.t) (w : World) (props : AudioProperties.t) :
  SoundPlayer.soundProperties_ p !! i = Some props ->
  SoundPlayer.soundBuffers_ p !! i = None ->
  SoundPlayer.unload Debug i p w
  = Done (SoundPlayer.mk (SoundPlayer.globalVolume_ p)
            (SoundPlayer.soundBuffers_ p)
            (delete i (SoundPlayer.soundProperties_ p))
            (filter (fun e => SoundPlayer.id e ≠ i) (SoundPlayer.sounds_ p)),
          DebugLogger.cacheMessage
            "ae::ResourceHolder::unload - Unable to find resource" w)
  ∧ SoundPlayer.unload Release i p w = Undefined.
Proof.
  intros Hprops Hbuf. unfold SoundPlayer.unload, ResourceHolder.unload.
  by rewrite Hprops, Hbuf.
Qed.





(** ** The effective volume *)

Lemma MusicPlayer_play_at_volume (b : Build) (position : Vector2f) (id : Z)
    (loop : bool) (p : MusicPlayer.t) (w : World)
    (track : MusicPlayer.MusicTrack) :
  MusicPlayer.tracks_ p !! id = Some track ->
  ∃ p' track',
    MusicPlayer.play_at b position id loop p w = Done (p', w)
    ∧ MusicPlayer.tracks_ p' !! id = Some track'
    ∧ track_volume track'
      = effective_volume (MusicPlayer.getGlobalVolume p)
          (MusicPlayer.VOLUME track)
    ∧ track_status track' = Playing
    ∧ MusicPlayer.VOLUME track' = MusicPlayer.VOLUME track
    ∧ MusicPlayer.getGlobalVolume p' = MusicPlayer.getGlobalVolume p.
Proof.
  intros Htrack. unfold MusicPlayer.play_at. rewrite Htrack.
  eexists _, _. split; [reflexivity|]. simpl.
  split; [apply lookup_insert_eq|]. done.
Qed.

Lemma MusicPlayer_setGlobalVolume_volume (v : float) (id : Z)
    (p : MusicPlayer.t) (track : MusicPlayer.MusicTrack) :
  MusicPlayer.tracks_ p !! id = Some track ->
  ∃ track',
    MusicPlayer.tracks_ (MusicPlayer.setGlobalVolume v p) !! id = Some track'
    ∧ track_volume track'
      = effective_volume
          (MusicPlayer.getGlobalVolume (MusicPlayer.setGlobalVolume v p))
          (MusicPlayer.VOLUME track)
    ∧ MusicPlayer.VOLUME track' = MusicPlayer.VOLUME track.
Proof.
  intros Htrack. unfold MusicPlayer.setGlobalVolume. simpl.
  rewrite lookup_fmap, Htrack. simpl. by eexists.
Qed.

(** C1. With [V] the nominal volume stored for a loaded id, the volume
    handed to the audio engine is [globalVolume × V / 100]
    - for the track of the id, by [MusicPlayer::play] (both overloads);
    - for every loaded track, by [MusicPlayer::setGlobalVolume], with the
      global volume it has just stored;
    - for the new instance, by [SoundPlayer::play];
    - for every active instance, by [SoundPlayer::setGlobalVolume];
    and in the scenario (global volume 50, nominal volume 40) the
    instance created by [play] has volume 20. *)
Theorem players_set_effective_volume
    (b : Build) (p : MusicPlayer.t) (sp : SoundPlayer.t) (w : World)
    (id : Z) (position : Vector2f) (loop : bool) (v : float) :
  (∀ track, MusicPlayer.tracks_ p !! id = Some track ->
     (∃ p' track',
        MusicPlayer.play_at b position id loop p w = Done (p', w)
        ∧ MusicPlayer.tracks_ p' !! id = Some track'
        ∧ track_volume track'
          = effective_volume (MusicPlayer.getGlobalVolume p)
              (MusicPlayer.VOLUME track)
        ∧ MusicPlayer.VOLUME track' = MusicPlayer.VOLUME track)
     ∧ (∃ p' track',
          MusicPlayer.play b id loop p w = Done (p', w)
          ∧ MusicPlayer.tracks_ p' !! id = Some track'
          ∧ track_volume track'
            = effective_volume (MusicPlayer.getGlobalVolume p)
                (MusicPlayer.VOLUME track)
          ∧ MusicPlayer.VOLUME track' = MusicPlayer.VOLUME track)
     ∧ (∃ track',
          MusicPlayer.tracks_ (MusicPlayer.setGlobalVolume v p) !! id
          = Some track'
          ∧ track_volume track'
            = effective_volume
                (MusicPlayer.getGlobalVolume (MusicPlayer.setGlobalVolume v p))
                (MusicPlayer.VOLUME track)
          ∧ MusicPlayer.VOLUME track' = MusicPlayer.VOLUME track))
  ∧ (∀ props buf,
       SoundPlayer.soundProperties_ sp !! id = Some props ->
       SoundPlayer.soundBuffers_ sp !! id = Some buf ->
       (∃ sp' e,
          SoundPlayer.play_at b position id sp w = Done (sp', w)
          ∧ last (SoundPlayer.sounds_ sp') = Some e
          ∧ SoundPlayer.id e = id
          ∧ effect_volume e
            = effective_volume (SoundPlayer.getGlobalVolume sp)
                (AudioProperties.getVolume props))
       ∧ (∃ sp' e,
            SoundPlayer.play b id sp w = Done (sp', w)
            ∧ last (SoundPlayer.sounds_ sp') = Some e
            ∧ SoundPlayer.id e = id
            ∧ effect_volume e
              = effective_volume (SoundPlayer.getGlobalVolume sp)
                  (AudioProperties.getVolume props)))
  ∧ (instances_have_properties sp ->
     ∃ sp',
       SoundPlayer.setGlobalVolume b v sp w = Done (sp', w)
       ∧ SoundPlayer.soundProperties_ sp' = SoundPlayer.soundProperties_ sp
       ∧ length (SoundPlayer.sounds_ sp') = length (SoundPlayer.sounds_ sp)
       ∧ ∀ k e props,
           SoundPlayer.sounds_ sp !! k = Some e ->
           SoundPlayer.soundProperties_ sp !! SoundPlayer.id e = Some props ->
           ∃ e', SoundPlayer.sounds_ sp' !! k = Some e'
             ∧ SoundPlayer.id e' = SoundPlayer.id e
             ∧ effect_volume e'
               = effective_volume (SoundPlayer.getGlobalVolume sp')
                   (AudioProperties.getVolume props))
  ∧ (∃ sp' w' props e,
       scenario_play b = Done (sp', w')
       ∧ SoundPlayer.getGlobalVolume sp' = of_Z 50
       ∧ SoundPlayer.soundProperties_ sp' !! 7%Z = Some props
       ∧ AudioProperties.getVolume props = of_Z 40
       ∧ SoundPlayer.sounds_ sp' = [e]
       ∧ SoundPlayer.id e = 7%Z
       ∧ effect_volume e = of_Z 20).
Proof.
  split; [|split; [|split]].
  - intros track Htrack. split; [|split].
    + destruct (MusicPlayer_play_at_volume b position id loop p w track Htrack)
        as (p' & track' & ? & ? & ? & ? & ? & ?).
      by exists p', track'.
    + destruct (MusicPlayer_play_at_volume b
                  (AudioPlayer.getListenerPosition w) id loop p w track Htrack)
        as (p' & track' & ? & ? & ? & ? & ? & ?).
      by exists p', track'.
    + by apply MusicPlayer_setGlobalVolume_volume.
  - intros props buf Hprops Hbuf. split.
    + eexists _, _. split; [by apply SoundPlayer_play_at_loaded|].
      simpl. by rewrite last_snoc.
    + eexists _, _. split; [by apply SoundPlayer_play_at_loaded|].
      simpl. by rewrite last_snoc.
  - intros Hwf. eexists.
    split; [by apply SoundPlayer_setGlobalVolume_all_found|]. simpl.
    split; [done|]. split; [by rewrite length_fmap|].
    intros k e props Hk Hprops. exists (rescaled (AudioPlayer.setGlobalVolume v)
                                   (SoundPlayer.soundProperties_ sp) e).
    rewrite list_lookup_fmap, Hk. split; [done|].
    rewrite rescaled_id. split; [done|].
    unfold rescaled. by rewrite Hprops.
  - destruct b; vm_compute; by eexists _, _, _, _.
Qed.

Lemma players_set_effective_volume_witness :
  (∃ p' track',
     MusicPlayer.play Release 5 true one_track_player world_300
     = Done (p', world_300)
     ∧ MusicPlayer.tracks_ p' !! 5%Z = Some track'
     ∧ track_volume track'
       = effective_volume (MusicPlayer.getGlobalVolume one_track_player)
           (MusicPlayer.VOLUME playing_track)
     ∧ MusicPlayer.VOLUME track' = MusicPlayer.VOLUME playing_track)
  ∧ (∃ sp',
       SoundPlayer.setGlobalVolume Release (of_Z 25) one_sound_player world_300
       = Done (sp', world_300)
       ∧ SoundPlayer.soundProperties_ sp'
         = SoundPlayer.soundProperties_ one_sound_player
       ∧ length (SoundPlayer.sounds_ sp')
         = length (SoundPlayer.sounds_ one_sound_player)
       ∧ ∀ k e props,
           SoundPlayer.sounds_ one_sound_player !! k = Some e ->
           SoundPlayer.soundProperties_ one_sound_player !! SoundPlayer.id e
           = Some props ->
           ∃ e', SoundPlayer.sounds_ sp' !! k = Some e'
             ∧ SoundPlayer.id e' = SoundPlayer.id e
             ∧ effect_volume e'
               = effective_volume (SoundPlayer.getGlobalVolume sp')
                   (AudioProperties.getVolume props)).
Proof.
  destruct (players_set_effective_volume Release one_track_player
              one_sound_player world_300 5
              (mkVector2f (of_Z 0) (of_Z 0)) true (of_Z 25))
    as (Hmusic & _ & Hsound & _).
  split.
  - destruct (Hmusic playing_track) as (_ & H & _); [reflexivity|exact H].
  - apply Hsound. intros e He.
    assert (e ∈ SoundPlayer.sounds_ one_sound_player ->
            SoundPlayer.id e = 7%Z) as Hid.
    { vm_compute. intros H. apply list_elem_of_singleton in H.
      by rewrite H. }
    rewrite (Hid He). vm_compute. by eexists.
Defined.

(** ** AudioProperties *)

Lemma of_Z_0 : of_Z 0 = S754_zero false.
Proof. reflexivity. Qed.

Lemma of_Z_100 : of_Z 100 = S754_finite false 13107200 (-17).
Proof. vm_compute. reflexivity. Qed.

Lemma SFcompare_swap (x y : float) :
  SFcompare y x = CompOpp <$> SFcompare x y.
Proof.
  destruct x as [[]|[]| |[] m1 e1], y as [[]|[]| |[] m2 e2]; simpl;
    try reflexivity;
    rewrite (Z.compare_antisym e1 e2); destruct (e1 ?= e2)%Z; simpl;
    try reflexivity;
    by rewrite (Pos.compare_cont_antisym m1 m2 Eq).
Qed.

Lemma SFcompare_None (x y : float) :
  SFcompare x y = None -> is_nan x = true ∨ is_nan y = true.
Proof.
  destruct x as [?|?| |[] ? ?], y as [?|?| |[] ? ?]; simpl;
    (discriminate || auto).
Qed.

Lemma SFcompare_Eq (x y : float) :
  SFcompare x y = Some Eq ->
  x = y ∨ ∃ s s', x = S754_zero s ∧ y = S754_zero s'.
Proof.
  destruct x as [s1|s1| |s1 m1 e1], y as [s2|s2| |s2 m2 e2]; simpl;
    intros H; try discriminate H.
  - right. by eexists _, _.
  - destruct s2; discriminate H.
  - destruct s2; discriminate H.
  - destruct s1; discriminate H.
  - left. destruct s1, s2; (discriminate H || reflexivity).
  - destruct s1; discriminate H.
  - destruct s1; discriminate H.
  - destruct s2; discriminate H.
  - left. destruct s1, s2; try discriminate H;
      destruct (Z.compare_spec e1 e2) as [->| |]; try discriminate H;
      destruct (Pos.compare_cont Eq m1 m2) eqn:E; try discriminate H;
      apply Pos.compare_eq in E; by subst.
Qed.

(** The outcomes of the comparisons of [x] with [y] and of [y] with
    [x]. *)
Lemma SFcompare_both (x y : float) (c : comparison) :
  SFcompare x y = Some c -> SFcompare y x = Some (CompOpp c).
Proof. intros H. by rewrite SFcompare_swap, H. Qed.

(** Evaluates the comparisons whose outcomes are in the context. *)
Ltac compare_eval :=
  unfold fmaxf, fminf, leb, ltb, SFleb, SFltb in *;
  repeat (first
    [ match goal with
      | H : SFcompare ?x ?y = _ |- context [SFcompare ?x ?y] => rewrite H
      | H : is_nan ?x = _ |- context [is_nan ?x] => rewrite H
      end
    | progress simpl ]).

Ltac compare_solve :=
  compare_eval; intros; repeat split; (congruence || done || auto).

(** What [fmaxf (fminf v hi) lo] is, for bounds [lo] below [hi]: one of
    the bounds, or [v] when it lies strictly between them. *)
Lemma fmaxf_fminf_cases (v lo hi : float) :
  SFcompare lo hi = Some Lt ->
  SFcompare lo lo = Some Eq ->
  SFcompare hi hi = Some Eq ->
  (∀ c, SFcompare v hi = Some c -> c ≠ Lt -> SFcompare v lo = Some Gt) ->
  let r := fmaxf (fminf v hi) lo in
  clamped v lo hi r
  ∧ (r = lo ∨ r = hi ∨ r = v ∧ ltb lo v = true ∧ ltb v hi = true).
Proof.
  intros Hlohi Hlo Hhi Htrans r. subst r.
  pose proof (SFcompare_both _ _ _ Hlohi) as Hhilo. simpl in Hhilo.
  assert (is_nan lo = false ∧ is_nan hi = false) as [Hnan_lo Hnan_hi].
  { destruct lo, hi; try discriminate Hlohi; done. }
  destruct (SFcompare v hi) as [c1|] eqn:E1.
  - assert (is_nan v = false) as Hnan_v by (by destruct v).
    destruct (SFcompare v lo) as [c0|] eqn:E0.
    + pose proof (SFcompare_both _ _ _ E1) as E1'.
      pose proof (SFcompare_both _ _ _ E0) as E0'.
      destruct c1.
      * specialize (Htrans Eq eq_refl ltac:(done)). simplify_eq.
        simpl in *. split; [split; compare_solve|]. compare_solve.
      * clear Htrans. destruct c0; simpl in *;
          (split; [split; compare_solve|]); compare_solve.
      * specialize (Htrans Gt eq_refl ltac:(done)). simplify_eq.
        simpl in *. split; [split; compare_solve|]. compare_solve.
    + apply SFcompare_None in E0 as [?|?]; congruence.
  - assert (is_nan v = true) as Hnan_v.
    { apply SFcompare_None in E1 as [?|?]; congruence. }
    assert (SFcompare hi v = None) as E1' by (by destruct v, hi).
    assert (SFcompare v lo = None) as E0 by (by destruct v, lo).
    assert (SFcompare lo v = None) as E0' by (by destruct v, lo).
    clear Htrans. split; [split; compare_solve|]. compare_solve.
Qed.

(** Clamping by [fminf] then [fmaxf], for bounds [lo] below [hi]. *)
Lemma fmaxf_fminf_clamped (v lo hi : float) :
  SFcompare lo hi = Some Lt ->
  SFcompare lo lo = Some Eq ->
  SFcompare hi hi = Some Eq ->
  (∀ c, SFcompare v hi = Some c -> c ≠ Lt -> SFcompare v lo = Some Gt) ->
  clamped v lo hi (fmaxf (fminf v hi) lo).
Proof. intros. by apply fmaxf_fminf_cases. Qed.

(** Clamping a clamped value returns it. *)
Lemma fmaxf_fminf_again (v lo hi : float) :
  SFcompare lo hi = Some Lt ->
  SFcompare lo lo = Some Eq ->
  SFcompare hi hi = Some Eq ->
  (∀ v c, SFcompare v hi = Some c -> c ≠ Lt -> SFcompare v lo = Some Gt) ->
  fmaxf (fminf (fmaxf (fminf v hi) lo) hi) lo = fmaxf (fminf v hi) lo.
Proof.
  intros Hlohi Hlo Hhi Htrans.
  destruct (fmaxf_fminf_cases v lo hi Hlohi Hlo Hhi (Htrans v))
    as [_ [->|[->|(Hv & Hlov & Hvhi)]]].
  - apply (clamped_below lo lo hi);
      [apply fmaxf_fminf_clamped; eauto|].
    unfold leb, SFleb. by rewrite Hlo.
  - apply (clamped_above hi lo hi);
      [apply fmaxf_fminf_clamped; eauto|].
    unfold leb, SFleb. by rewrite Hhi.
  - by rewrite Hv, Hv.
Qed.

(** The greater of two floats by [fmaxf], for a bound that is not a
    NaN: the bound, or the other argument when it is greater. *)
Lemma fmaxf_cases (a lo : float) :
  SFcompare lo lo = Some Eq ->
  let r := fmaxf a lo in
  bounded_below a lo r ∧ (r = lo ∨ r = a ∧ ltb lo a = true).
Proof.
  intros Hlo r. subst r.
  assert (is_nan lo = false) as Hnan_lo by (by destruct lo).
  destruct (SFcompare a lo) as [c|] eqn:E.
  - pose proof (SFcompare_both _ _ _ E) as E'.
    destruct c; simpl in *; (split; [split; compare_solve|]);
      compare_solve.
  - assert (SFcompare lo a = None) as E'.
    { apply SFcompare_None in E as [?|?]; [by destruct a, lo|congruence]. }
    split; [split; compare_solve|]. compare_solve.
Qed.

Lemma fmaxf_bounded_below (a lo : float) :
  SFcompare lo lo = Some Eq -> bounded_below a lo (fmaxf a lo).
Proof. intros. by apply fmaxf_cases. Qed.

(** Raising a raised value returns it. *)
Lemma fmaxf_again (a lo : float) :
  SFcompare lo lo = Some Eq -> fmaxf (fmaxf a lo) lo = fmaxf a lo.
Proof.
  intros Hlo.
  destruct (fmaxf_cases a lo Hlo) as [_ [->|[Ha Hloa]]].
  - apply (bounded_at_most lo lo); [by apply fmaxf_bounded_below|].
    unfold leb, SFleb. by rewrite Hlo.
  - by rewrite Ha, Ha.
Qed.

(** A float compares with 100, and one that is not below 100 is
    above 0. *)
Lemma above_100_above_0 (v : float) (c : comparison) :
  SFcompare v (S754_finite false 13107200 (-17)) = Some c ->
  c ≠ Lt -> SFcompare v (S754_zero false) = Some Gt.
Proof.
  destruct v as [[]|[]| |[] m e]; intros H Hc;
    try discriminate H; try reflexivity; simpl in H; congruence.
Qed.

Lemma setVolume_clamped (v : float) :
  clamped v (of_Z 0) (of_Z 100) (fmaxf (fminf v (of_Z 100)) (of_Z 0)).
Proof.
  rewrite of_Z_0, of_Z_100. apply fmaxf_fminf_clamped; try reflexivity.
  apply above_100_above_0.
Qed.

Lemma setVolume_again (v : float) :
  fmaxf (fminf (fmaxf (fminf v (of_Z 100)) (of_Z 0)) (of_Z 100)) (of_Z 0)
  = fmaxf (fminf v (of_Z 100)) (of_Z 0).
Proof.
  rewrite of_Z_0, of_Z_100. apply fmaxf_fminf_again; try reflexivity.
  apply above_100_above_0.
Qed.

Lemma setAttenuation_bounded_below (a : float) :
  bounded_below a (of_Z 0) (fmaxf a (of_Z 0)).
Proof. by apply fmaxf_bounded_below. Qed.

(** C5. Whatever the argument, [setVolume] and the constructor store
    the volume clamped to the interval from 0 to 100: 0 for an argument
    of at most 0, 100 for one of at least 100, the argument itself
    strictly in between. [setAttenuation] and the constructor store the
    attenuation bounded below by 0: 0 for an argument of at most 0, the
    argument itself above 0. The stored values are in range for every
    argument, and the setters and the constructor are total: they return
    the object and signal nothing. *)
Theorem AudioProperties_clamps_volume_and_attenuation
    (volume attenuation pitch minDistance2d : float)
    (relativeToListener : bool) (w : World) (p : AudioProperties.t) :
  clamped volume (of_Z 0) (of_Z 100)
    (AudioProperties.getVolume (AudioProperties.setVolume volume p))
  ∧ bounded_below attenuation (of_Z 0)
      (AudioProperties.getAttenuation
         (AudioProperties.setAttenuation attenuation p))
  ∧ clamped volume (of_Z 0) (of_Z 100)
      (AudioProperties.getVolume
         (AudioProperties.construct volume attenuation pitch minDistance2d
            relativeToListener w))
  ∧ bounded_below attenuation (of_Z 0)
      (AudioProperties.getAttenuation
         (AudioProperties.construct volume attenuation pitch minDistance2d
            relativeToListener w)).
Proof.
  split; [apply setVolume_clamped|].
  split; [apply setAttenuation_bounded_below|].
  split; [apply setVolume_clamped|apply setAttenuation_bounded_below].
Qed.

(** A NaN, which no comparison orders, is stored as 100 for the volume
    and as 0 for the attenuation. *)
Example AudioProperties_nan (p : AudioProperties.t) :
  AudioProperties.getVolume (AudioProperties.setVolume S754_nan p) = of_Z 100
  ∧ AudioProperties.getAttenuation
      (AudioProperties.setAttenuation S754_nan p) = of_Z 0.
Proof. split; vm_compute; reflexivity. Qed.

(** A negative zero, which compares equal to the bound [0.f], is stored
    as the positive zero. *)
Example AudioProperties_negative_zero (p : AudioProperties.t) :
  AudioProperties.getVolume (AudioProperties.setVolume (S754_zero true) p)
  = S754_zero false
  ∧ AudioProperties.getAttenuation
      (AudioProperties.setAttenuation (S754_zero true) p) = S754_zero false
  ∧ AudioPlayer.setGlobalVolume (S754_zero true) = S754_zero false.
Proof. repeat split; vm_compute; reflexivity. Qed.

Example AudioProperties_volume_examples (p : AudioProperties.t) :
  AudioProperties.getVolume (AudioProperties.setVolume (of_Z 150) p)
  = of_Z 100
  ∧ AudioProperties.getVolume (AudioProperties.setVolume (of_Z (-3)) p)
    = of_Z 0
  ∧ AudioProperties.getVolume (AudioProperties.setVolume (of_Z 65) p)
    = of_Z 65
  ∧ AudioProperties.getVolume
      (AudioProperties.setVolume (S754_infinity false) p) = of_Z 100
  ∧ AudioProperties.getAttenuation
      (AudioProperties.setAttenuation (of_Z (-20)) p) = of_Z 0.
Proof. repeat split; vm_compute; reflexivity. Qed.

(** One event keeps every stored 3D distance the hypotenuse for the
    depth recorded for its object. *)
Lemma step_stored_for_depth (ev : Event) (w : World)
    (objs objs' : list AudioProperties.t) (zs : list float) :
  Forall2 stored_for_depth objs zs ->
  step_objects ev w objs = Some objs' ->
  Forall2 stored_for_depth objs' (step_depths ev w zs).
Proof.
  intros Hall Hstep.
  assert (∀ this f p,
            objs !! this = Some p ->
            (∀ z, stored_for_depth p z -> stored_for_depth (f p) z) ->
            Forall2 stored_for_depth (<[this := f p]> objs) zs) as Hkeep.
  { intros this f p Hp Hf.
    destruct (Forall2_lookup_l _ _ _ _ _ Hall Hp) as (z & Hz & Hpz).
    rewrite <- (list_insert_id zs this z Hz).
    apply Forall2_insert; [done | by apply Hf]. }
  destruct ev; simpl in *; unfold on_object in *; simplify_option_eq;
    try done; try (by apply Hkeep).
  - by apply Forall2_app; [|apply Forall2_cons].
  - match goal with
    | H : objs !! other = Some _ |- _ =>
        destruct (Forall2_lookup_l _ _ _ _ _ Hall H) as (z & -> & Hz)
    end.
    by apply Forall2_app; [|apply Forall2_cons].
  - match goal with
    | H : objs !! other = Some _ |- _ =>
        destruct (Forall2_lookup_l _ _ _ _ _ Hall H) as (z & -> & Hz)
    end.
    by apply Forall2_app; [|apply Forall2_cons].
  - match goal with
    | H : objs !! other = Some _ |- _ =>
        destruct (Forall2_lookup_l _ _ _ _ _ Hall H) as (z & -> & Hz)
    end.
    by apply Forall2_insert.
  - match goal with
    | H : objs !! other = Some _ |- _ =>
        destruct (Forall2_lookup_l _ _ _ _ _ Hall H) as (z & -> & Hz)
    end.
    by apply Forall2_insert.
  - by apply Forall2_insert.
Qed.

Lemma run_stored_for_depth (evs : list Event) (w w' : World)
    (objs objs' : list AudioProperties.t) (zs : list float) :
  Forall2 stored_for_depth objs zs ->
  run evs objs w = Some (objs', w') ->
  Forall2 stored_for_depth objs' (assignment_depths evs w zs).
Proof.
  revert w objs zs.
  induction evs as [|ev evs IH]; intros w objs zs Hall Hrun; simpl in *.
  - by simplify_eq.
  - destruct (step_objects ev w objs) as [objs1|] eqn:Hstep; [|done].
    simpl in Hrun. eapply IH; [|exact Hrun].
    by eapply step_stored_for_depth.
Qed.

(** One event keeps the depths recorded for the objects equal to the
    depth of the listener, when it does not change that depth. *)
Lemma step_depths_present (ev : Event) (w : World) (zs : list float) :
  Forall (eq (depth w)) zs -> Forall (eq (depth w)) (step_depths ev w zs).
Proof.
  intros Hall. destruct ev; simpl; try done.
  - apply Forall_app. split; [done | by apply Forall_singleton].
  - destruct (zs !! other) as [z|] eqn:Hz; [|done].
    apply Forall_app. split; [done|]. apply Forall_singleton.
    by eapply Forall_lookup_1.
  - destruct (zs !! other) as [z|] eqn:Hz; [|done].
    apply Forall_app. split; [done|]. apply Forall_singleton.
    by eapply Forall_lookup_1.
  - destruct (zs !! other) as [z|] eqn:Hz; [|done].
    apply Forall_insert; [done|]. by eapply Forall_lookup_1.
  - destruct (zs !! other) as [z|] eqn:Hz; [|done].
    apply Forall_insert; [done|]. by eapply Forall_lookup_1.
  - by apply Forall_insert.
Qed.

Lemma run_depths_present (evs : list Event) (w w' : World)
    (objs objs' : list AudioProperties.t) (zs : list float) :
  NewAudioPlayer ∉ evs ∨ depth w = of_Z 300 ->
  (∀ x y z, MoveListener x y z ∈ evs -> z = depth w) ->
  Forall (eq (depth w)) zs ->
  run evs objs w = Some (objs', w') ->
  depth w' = depth w
  ∧ Forall (eq (depth w)) (assignment_depths evs w zs).
Proof.
  revert w objs zs.
  induction evs as [|ev evs IH]; intros w objs zs Hnew Hmove Hall Hrun;
    simpl in *.
  - by simplify_eq.
  - destruct (step_objects ev w objs) as [objs1|] eqn:Hstep; [|done].
    simpl in Hrun.
    assert (depth (step_world ev w) = depth w) as Hdepth.
    { destruct ev; try done.
      - destruct Hnew as [Hnew|Hnew]; [|by rewrite Hnew].
        exfalso. apply Hnew. left.
      - simpl. apply (Hmove x y z). left. }
    rewrite <- Hdepth. eapply IH; [| | |exact Hrun].
    + destruct Hnew as [Hnew|Hnew].
      * left. intros Hin. apply Hnew. by right.
      * right. by rewrite Hdepth.
    + intros x y z Hin. rewrite Hdepth. apply (Hmove x y z). by right.
    + rewrite Hdepth. by apply step_depths_present.
Qed.

(** The claim of the data model fails: a properties object built before
    the first player keeps the 3D distance computed for depth 0 when the
    constructor of the player moves the listener to depth 300. *)
Lemma minDistance3D_not_recomputed_on_depth_change :
  ¬ (∀ (evs : list Event) (w0 w : World) (objs : list AudioProperties.t)
       (i : nat) (p : AudioProperties.t),
       run evs [] w0 = Some (objs, w) ->
       objs !! i = Some p ->
       follows_listener (p, w)).
Proof.
  intros H.
  specialize (H [Construct (of_Z 100) (of_Z 1) (of_Z 1) (of_Z 1) false;
                 NewAudioPlayer]
                initialWorld _ _ 0%nat _ eq_refl eq_refl).
  vm_compute in H. discriminate H.
Qed.

(** C3, amended. At every point of a program, the 3D distance an object
    stores is the hypotenuse of the 2D distance it stores and of the
    depth the listener had when that 2D distance was assigned: by the
    constructor with arguments or by [setMinDistance2D], on the object
    itself or on the object its members were since copied, moved or
    assigned from. The constructor and [setMinDistance2D] compute it
    for the depth of the listener at the call. It is the hypotenuse for
    the present depth in every object of a program during which the
    depth does not change: one that constructs no player, or runs when
    a player has been constructed (depth 300), and that does not move
    the listener to another depth by itself. *)
Theorem minDistance3D_follows_depth_at_last_assignment
    (evs : list Event) (w0 w : World) (objs : list AudioProperties.t)
    (i : nat) (p : AudioProperties.t) :
  run evs [] w0 = Some (objs, w) ->
  objs !! i = Some p ->
  (∃ z0, assignment_depths evs w0 [] !! i = Some z0
         ∧ stored_for_depth p z0)
  ∧ (NewAudioPlayer ∉ evs ∨ depth w0 = of_Z 300 ->
     (∀ x y z, MoveListener x y z ∈ evs -> z = depth w0) ->
     follows_listener (p, w))
  ∧ (∀ volume attenuation pitch minDistance2d relativeToListener,
       follows_listener
         (AudioProperties.construct volume attenuation pitch minDistance2d
            relativeToListener w, w))
  ∧ (∀ minDistance2d,
       follows_listener (AudioProperties.setMinDistance2D minDistance2d w p,
                         w)).
Proof.
  intros Hrun Hp.
  pose proof (run_stored_for_depth evs w0 w [] objs [] ltac:(constructor) Hrun)
    as Hall.
  destruct (Forall2_lookup_l _ _ _ _ _ Hall Hp) as (z0 & Hz0 & Hstored).
  split; [by exists z0|]. split; [|done].
  intros Hnew Hmove.
  destruct (run_depths_present evs w0 w [] objs [] Hnew Hmove
              ltac:(constructor) Hrun) as [Hdepth Hzs].
  unfold follows_listener. simpl. rewrite Hdepth.
  by rewrite (Forall_lookup_1 _ _ _ _ Hzs Hz0).
Qed.

Lemma minDistance3D_follows_depth_witness :
  ∃ objs w p,
    run distances_program [] world_300 = Some (objs, w)
    ∧ objs !! 0%nat = Some p
    ∧ AudioProperties.getMinDistance2D p = of_Z 40
    ∧ depth w = of_Z 300
    ∧ ltb (of_Z 300) (AudioProperties.getMinDistance3D p) = true
    ∧ (∃ z0, assignment_depths distances_program world_300 [] !! 0%nat
             = Some z0
             ∧ stored_for_depth p z0)
    ∧ follows_listener (p, w).
Proof.
  eexists _, _, _.
  split; [vm_compute; reflexivity|].
  split; [reflexivity|].
  split; [reflexivity|].
  split; [reflexivity|].
  split; [reflexivity|].
  match goal with
  | |- _ ∧ follows_listener (?p, ?w) =>
      destruct (minDistance3D_follows_depth_at_last_assignment
                  distances_program world_300 w _ 0%nat p
                  ltac:(vm_compute; reflexivity) eq_refl)
        as (Hz0 & Hfollows & _)
  end.
  split; [exact Hz0|]. apply Hfollows.
  - by right.
  - intros x y z Hin.
    repeat (apply elem_of_cons in Hin as [Hin|Hin]; [discriminate Hin|]).
    by apply elem_of_nil in Hin.
Defined.

(** The values of the counterexample: the distance kept is 1, the
    hypotenuse for the new depth is above 300. *)
Example minDistance3D_stale_values :
  let p := AudioProperties.default initialWorld in
  let w := (AudioPlayer.construct initialWorld).2 in
  AudioProperties.getMinDistance3D p = of_Z 1
  ∧ depth w = of_Z 300
  ∧ ltb (of_Z 300)
        (hypotenuse (AudioProperties.getMinDistance2D p) (depth w)) = true.
Proof. repeat split; reflexivity. Qed.

(** A copy carries the stored distance along: an object copied, after
    a player was constructed, from one built before it stores the
    distance for depth 0, although the listener was at depth 300 when
    the copy itself was constructed. [SoundPlayer::load] and
    [MusicPlayer::load] store or read such copies. *)
Example minDistance3D_stale_copy :
  ∃ objs w p,
    run [Construct (of_Z 100) (of_Z 1) (of_Z 1) (of_Z 1) false;
         NewAudioPlayer; CopyConstruct 0]
      [] initialWorld = Some (objs, w)
    ∧ objs !! 1%nat = Some p
    ∧ depth w = of_Z 300
    ∧ AudioProperties.getMinDistance3D p = of_Z 1
    ∧ assignment_depths
        [Construct (of_Z 100) (of_Z 1) (of_Z 1) (of_Z 1) false;
         NewAudioPlayer; CopyConstruct 0]
        initialWorld [] !! 1%nat = Some (of_Z 0)
    ∧ ¬ follows_listener (p, w).
Proof.
  eexists _, _, _.
  split; [vm_compute; reflexivity|].
  repeat (split; [reflexivity|]).
  intros H. vm_compute in H. discriminate H.
Qed.

(** ** Math::pascalTriangle *)

Section Binomial.

Local Open Scope Z_scope.

Lemma binomial_0_r (n : nat) : binomial n 0 = 1.
Proof. by destruct n. Qed.

Lemma binomial_S_S (n k : nat) :
  binomial (S n) (S k) = binomial n k + binomial n (S k).
Proof. reflexivity. Qed.

Lemma binomial_nonneg (n k : nat) : 0 <= binomial n k.
Proof.
  revert k. induction n as [|n IH]; intros [|k]; simpl; try lia.
  pose proof (IH k). pose proof (IH (S k)). lia.
Qed.

Lemma binomial_above (n k : nat) : (n < k)%nat -> binomial n k = 0.
Proof.
  revert k. induction n as [|n IH]; intros [|k] H; simpl; try lia.
  rewrite !IH by lia. lia.
Qed.

Lemma binomial_diag (n : nat) : binomial n n = 1.
Proof.
  induction n as [|n IH]; simpl; [done|].
  rewrite IH, binomial_above by lia. lia.
Qed.

(** (k + 1) C(n, k + 1) = (n - k) C(n, k) *)
Lemma binomial_absorb (n k : nat) :
  binomial n (S k) * (Z.of_nat k + 1)
  = binomial n k * (Z.of_nat n - Z.of_nat k).
Proof.
  revert k. induction n as [|n IH]; intros k.
  - destruct k; simpl; lia.
  - pose proof (IH k) as Hk. rewrite !binomial_S_S.
    destruct k as [|k].
    + rewrite !binomial_0_r in *. change (Z.of_nat 0) with 0 in *.
      rewrite Nat2Z.inj_succ. clear IH. lia.
    + pose proof (IH k) as Hk'. rewrite binomial_S_S.
      rewrite !Nat2Z.inj_succ in *. clear IH. nia.
Qed.

Lemma binomial_sym (n k : nat) :
  (k <= n)%nat -> binomial n (n - k) = binomial n k.
Proof.
  revert k. induction n as [|n IH]; intros k Hk.
  - by replace k with O by lia.
  - destruct k as [|k].
    + rewrite Nat.sub_0_r, binomial_diag. by rewrite binomial_0_r.
    + destruct (decide (k = n)) as [->|Hne].
      * rewrite Nat.sub_diag, binomial_diag. by rewrite binomial_0_r.
      * replace (S n - S k)%nat with (S (n - S k)) by lia.
        rewrite !binomial_S_S.
        replace (S (n - S k)) with (n - k)%nat by lia.
        rewrite !IH by lia. lia.
Qed.

Lemma binomial_row_lookup (n j : nat) :
  (j <= n)%nat -> binomial_row n !! j = Some (binomial n j).
Proof.
  intros H. unfold binomial_row.
  by rewrite list_lookup_fmap, lookup_seq_lt by lia.
Qed.

Lemma binomial_row_length (n : nat) : length (binomial_row n) = S n.
Proof. unfold binomial_row. by rewrite length_fmap, length_seq. Qed.

(** The two definitions of the rows agree; the second one is the one
    to evaluate. *)
Lemma binomial_row_pascal_row (n : nat) : binomial_row n = pascal_row n.
Proof.
  induction n as [|n IH]; [reflexivity|].
  cbn [pascal_row]. rewrite <- IH. apply list_eq. intros j.
  unfold pascal_next. rewrite lookup_zip_with.
  destruct (decide (j ≤ S n)%nat) as [Hj|Hj].
  - rewrite binomial_row_lookup by done. destruct j as [|j].
    + cbn [lookup list_lookup]. rewrite lookup_app_l
        by (rewrite binomial_row_length; lia).
      rewrite binomial_row_lookup by lia. by rewrite !binomial_0_r.
    + cbn [lookup list_lookup].
      rewrite binomial_row_lookup by lia. cbn [mbind option_bind].
      destruct (decide (S j ≤ n)%nat) as [Hlt|Hge].
      * rewrite lookup_app_l by (rewrite binomial_row_length; lia).
        rewrite binomial_row_lookup by lia. done.
      * assert (j = n) as -> by lia.
        rewrite lookup_app_r by (rewrite binomial_row_length; lia).
        rewrite binomial_row_length, Nat.sub_diag.
        cbn [lookup list_lookup mbind option_bind].
        rewrite binomial_S_S, (binomial_above n (S n)) by lia. done.
  - rewrite lookup_ge_None_2 by (rewrite binomial_row_length; lia).
    destruct j as [|j]; [lia|].
    change ((0 :: binomial_row n) !! S j) with (binomial_row n !! j).
    rewrite (lookup_ge_None_2 (binomial_row n) j)
      by (rewrite binomial_row_length; lia).
    done.
Qed.

End Binomial.

(** [binomial] is used through its equations from here on: unfolding
    it at a given row would spell out all the additions of the rule. *)
Opaque binomial.

Section PascalTriangle.

Local Open Scope Z_scope.
Import Math.

Lemma wrap_small (z : Z) : INT_MIN <= z <= INT_MAX -> wrap z = z.
Proof.
  unfold INT_MIN, INT_MAX, wrap. intros H.
  rewrite Z.mod_small; lia.
Qed.

Lemma upto_length (n k : nat) : length (binomial_row_upto n k) = S n.
Proof. unfold binomial_row_upto. by rewrite length_fmap, length_seq. Qed.

Lemma upto_lookup (n k j : nat) :
  (j <= n)%nat ->
  binomial_row_upto n k !! j
  = Some (if decide (j ≤ k)%nat then binomial n j else 0).
Proof.
  intros H. unfold binomial_row_upto.
  rewrite list_lookup_fmap, lookup_seq_lt by lia. done.
Qed.

Lemma upto_insert (n k : nat) :
  (k < n)%nat ->
  <[S k := binomial n (S k)]> (binomial_row_upto n k)
  = binomial_row_upto n (S k).
Proof.
  intros H. apply list_eq. intros j.
  destruct (decide (j ≤ n)%nat) as [Hj|Hj].
  - rewrite upto_lookup by done.
    destruct (decide (j = S k)) as [->|Hne].
    + rewrite list_lookup_insert_eq by (rewrite upto_length; lia).
      by rewrite decide_True by lia.
    + rewrite list_lookup_insert_ne by done.
      rewrite upto_lookup by done.
      destruct (decide (j ≤ k)%nat), (decide (j ≤ S k)%nat); (done || lia).
  - rewrite !lookup_ge_None_2; [done|..];
      rewrite ?length_insert, upto_length; lia.
Qed.

Lemma upto_start (n : nat) :
  <[O := 1]> (replicate (S n) 0) = binomial_row_upto n 0.
Proof.
  apply list_eq. intros j.
  destruct (decide (j ≤ n)%nat) as [Hj|Hj].
  - rewrite upto_lookup by done. destruct j as [|j].
    + rewrite binomial_0_r. reflexivity.
    + rewrite list_lookup_insert_ne by done.
      rewrite lookup_replicate_2 by lia. by rewrite decide_False by lia.
  - rewrite !lookup_ge_None_2; [done|..];
      rewrite ?length_insert, ?upto_length, ?length_replicate; lia.
Qed.

Lemma upto_full (n : nat) : binomial_row_upto n n = binomial_row n.
Proof.
  apply list_eq. intros j.
  destruct (decide (j ≤ n)%nat) as [Hj|Hj].
  - rewrite upto_lookup by done. unfold binomial_row.
    rewrite list_lookup_fmap, lookup_seq_lt by lia.
    by rewrite decide_True by done.
  - unfold binomial_row.
    rewrite !lookup_ge_None_2; [done|..];
      rewrite ?upto_length, ?length_fmap, ?length_seq; lia.
Qed.

(** A loop whose iteration [k + 1] takes the state [P k] to
    [P (k + 1)]. *)
Lemma for_loop_steps {S : Type} (P : nat -> S) (body : Z -> S -> option S)
    (count k : nat) :
  Z.of_nat (k + count) < INT_MAX ->
  (∀ j, (k <= j < k + count)%nat ->
        body (Z.of_nat (Datatypes.S j)) (P j) = Some (P (Datatypes.S j))) ->
  for_loop count (Z.of_nat (Datatypes.S k)) body (P k)
  = Some (P (k + count)%nat).
Proof.
  revert k. induction count as [|count IH]; intros k Hmax Hbody.
  - simpl. by rewrite Nat.add_0_r.
  - simpl. rewrite Hbody by lia. simpl.
    replace (iadd (Z.of_nat (Datatypes.S k)) 1)
      with (Z.of_nat (Datatypes.S (Datatypes.S k))).
    + rewrite IH.
      * f_equal. f_equal. lia.
      * lia.
      * intros j Hj. apply Hbody. lia.
    + unfold iadd. rewrite wrap_small; unfold INT_MIN, INT_MAX in *; lia.
Qed.

Lemma vec_set_upto (n k : nat) :
  (k < n)%nat ->
  vec_set (binomial_row_upto n k) (Z.of_nat (S k)) (binomial n (S k))
  = Some (binomial_row_upto n (S k)).
Proof.
  intros H. unfold vec_set. rewrite upto_length.
  rewrite andb_true_intro by (split; [apply Z.leb_le|apply Z.ltb_lt]; lia).
  by rewrite Nat2Z.id, upto_insert.
Qed.

Lemma vec_get_upto (n k j : nat) :
  (j <= k)%nat -> (j <= n)%nat ->
  vec_get (binomial_row_upto n k) (Z.of_nat j) = Some (binomial n j).
Proof.
  intros Hk Hn. unfold vec_get.
  replace (0 <=? Z.of_nat j) with true by (symmetry; apply Z.leb_le; lia).
  rewrite Nat2Z.id, upto_lookup by done. by rewrite decide_True by done.
Qed.

Lemma vec_set_start (n : nat) :
  vec_set (replicate (S n) 0) 0 1 = Some (binomial_row_upto n 0).
Proof.
  unfold vec_set. rewrite length_replicate.
  rewrite andb_true_intro by (split; [apply Z.leb_le|apply Z.ltb_lt]; lia).
  change (Z.to_nat 0) with O. by rewrite upto_start.
Qed.

(** The row is exact as long as no product of the recurrence leaves
    the range of [int]. *)
Lemma pascalTriangle_exact (n : nat) :
  Z.of_nat n < INT_MAX ->
  (∀ k, (S k <= n / 2)%nat ->
        binomial n k * (Z.of_nat n - Z.of_nat k) <= INT_MAX) ->
  pascalTriangle (Z.of_nat n) = Returns (binomial_row n).
Proof.
  intros Hn Hfit. unfold pascalTriangle, vector.
  assert (iadd (Z.of_nat n) 1 = Z.of_nat (S n)) as ->.
  { unfold iadd. rewrite wrap_small; unfold INT_MIN, INT_MAX in *; lia. }
  replace (Z.of_nat (S n) <? 0) with false
    by (symmetry; apply Z.ltb_ge; lia).
  assert (idiv (Z.of_nat n) 2 = Z.of_nat (n / 2)) as ->.
  { unfold idiv. rewrite Z.quot_div_nonneg by lia.
    change 2 with (Z.of_nat 2). rewrite <- (Nat2Z.inj_div n 2).
    assert (n / 2 <= n)%nat by (apply Nat.Div0.div_le_upper_bound; lia).
    rewrite wrap_small; unfold INT_MIN, INT_MAX in *; lia. }
  assert (n / 2 <= n)%nat as Hhalf
    by (apply Nat.Div0.div_le_upper_bound; lia).
  assert (n <= 2 * (n / 2) + 1)%nat as Hhalf2.
  { pose proof (Nat.div_mod_eq n 2).
    pose proof (Nat.mod_upper_bound n 2). lia. }
  assert (iadd (Z.of_nat (n / 2)) 1 = Z.of_nat (S (n / 2))) as ->.
  { unfold iadd. rewrite wrap_small; unfold INT_MIN, INT_MAX in *; lia. }
  rewrite Nat2Z.id.
  rewrite vec_set_start. cbn [mbind option_bind].
  match goal with
  | |- context [for_range 1 ?hi ?body (binomial_row_upto n 0)] =>
      assert (for_range 1 hi body (binomial_row_upto n 0)
              = Some (binomial_row_upto n (n / 2))) as ->
  end.
  { unfold for_range.
    replace (Z.to_nat (Z.of_nat (S (n / 2)) - 1)) with (n / 2)%nat by lia.
    apply (for_loop_steps (binomial_row_upto n) _ (n / 2) 0); [lia|].
    intros j Hj.
    assert (isub (Z.of_nat (S j)) 1 = Z.of_nat j) as ->.
    { unfold isub. rewrite wrap_small; unfold INT_MIN, INT_MAX in *; lia. }
    rewrite vec_get_upto by lia. cbn [mbind option_bind].
    assert (isub (Z.of_nat n) (Z.of_nat (S j)) = Z.of_nat n - Z.of_nat j - 1)
      as ->.
    { unfold isub. rewrite wrap_small; unfold INT_MIN, INT_MAX in *; lia. }
    assert (iadd (Z.of_nat n - Z.of_nat j - 1) 1 = Z.of_nat n - Z.of_nat j)
      as ->.
    { unfold iadd. rewrite wrap_small; unfold INT_MIN, INT_MAX in *; lia. }
    pose proof (Hfit j ltac:(lia)) as Hprod.
    pose proof (binomial_nonneg n j) as Hj0.
    pose proof (binomial_nonneg n (S j)) as HSj0.
    pose proof (binomial_absorb n j) as Habsorb.
    assert (imul (binomial n j) (Z.of_nat n - Z.of_nat j)
            = binomial n (S j) * (Z.of_nat j + 1)) as ->.
    { unfold imul. rewrite wrap_small; [lia|].
      unfold INT_MIN, INT_MAX in *. clear Hfit. nia. }
    assert (idiv (binomial n (S j) * (Z.of_nat j + 1)) (Z.of_nat (S j))
            = binomial n (S j)) as ->.
    { unfold idiv. rewrite Nat2Z.inj_succ, <- Z.add_1_r.
      rewrite Z.quot_mul by lia. rewrite wrap_small; [done|].
      unfold INT_MIN, INT_MAX in *. clear Hfit. nia. }
    apply vec_set_upto. lia. }
  cbn [mbind option_bind]. unfold for_range.
  replace (Z.to_nat (Z.of_nat n + 1 - Z.of_nat (S (n / 2))))
    with (n - n / 2)%nat by lia.
  rewrite (for_loop_steps (binomial_row_upto n) _ (n - n / 2) (n / 2));
    [| lia |].
  - replace (n / 2 + (n - n / 2))%nat with n by lia.
    by rewrite upto_full.
  - intros j Hj.
    assert (isub (Z.of_nat n) (Z.of_nat (S j)) = Z.of_nat (n - S j)) as ->.
    { unfold isub. rewrite wrap_small; unfold INT_MIN, INT_MAX in *; lia. }
    rewrite vec_get_upto by lia. cbn [mbind option_bind].
    rewrite binomial_sym by lia. apply vec_set_upto. lia.
Qed.

(** Rows 0 to 29 are exact. *)
Lemma pascalTriangle_upto_29 (n : nat) :
  (n <= 29)%nat -> pascalTriangle (Z.of_nat n) = Returns (binomial_row n).
Proof.
  intros H. rewrite binomial_row_pascal_row.
  do 30 (destruct n as [|n]; [vm_compute; reflexivity|]). lia.
Qed.

Lemma pascal_row_30_fits (v : Z) :
  v ∈ pascal_row 30 -> INT_MIN <= v <= INT_MAX.
Proof.
  intros Hv. apply list_elem_of_In in Hv.
  assert (forallb (fun v => (INT_MIN <=? v) && (v <=? INT_MAX))
            (pascal_row 30) = true) as Hall
    by (vm_compute; reflexivity).
  pose proof (proj1 (forallb_forall _ _) Hall v Hv) as H.
  apply andb_prop in H as [H1 H2].
  split; [by apply Z.leb_le | by apply Z.leb_le].
Qed.

Lemma pascal_row_30_binomial (i : nat) (v : Z) :
  pascal_row 30 !! i = Some v -> binomial 30 i = v.
Proof.
  intros Hv.
  assert (i <= 30)%nat as Hi.
  { apply lookup_lt_Some in Hv.
    change (length (pascal_row 30)) with 31%nat in Hv. lia. }
  rewrite <- binomial_row_pascal_row in Hv.
  rewrite binomial_row_lookup in Hv by exact Hi.
  exact (inj Some _ _ Hv).
Qed.

(** C9. Row 30: every coefficient C(30, i) is within the range of
    [int], yet the product [row[14] * (30 - 15 + 1)] of the recurrence
    is not, and the entry computed at index 15 is not C(30, 15). *)
Theorem pascalTriangle_30_overflows :
  (∀ i, (i <= 30)%nat -> INT_MIN <= binomial 30 i <= INT_MAX)
  ∧ binomial 30 14 * (30 - 15 + 1) > INT_MAX
  ∧ binomial 30 15 = 155117520
  ∧ ∃ row, pascalTriangle 30 = Returns row
       ∧ length row = 31%nat
       ∧ row !! 15%nat = Some (-131213633)
       ∧ row ≠ binomial_row 30.
Proof.
  split; [|split; [|split]].
  - intros i Hi.
    destruct (pascal_row 30 !! i) as [v|] eqn:Hv.
    + pose proof (pascal_row_30_binomial i v Hv) as E.
      rewrite E. apply pascal_row_30_fits.
      by apply list_elem_of_lookup_2 in Hv.
    + apply lookup_ge_None in Hv.
      change (length (pascal_row 30)) with 31%nat in Hv. lia.
  - assert (binomial 30 14 = 145422675) as E
      by (apply pascal_row_30_binomial; vm_compute; reflexivity).
    rewrite E. reflexivity.
  - apply pascal_row_30_binomial. vm_compute. reflexivity.
  - eexists. split; [vm_compute; reflexivity|].
    split; [reflexivity|]. split; [reflexivity|].
    rewrite binomial_row_pascal_row.
    intros H. apply (f_equal (fun l => l !! 15%nat)) in H.
    vm_compute in H. discriminate H.
Qed.

End PascalTriangle.

(** * Further properties *)

(** ** DebugLogger *)

Lemma cacheMessages_messages (messages : list string) (w : World) :
  messages_ (cacheMessages messages w) = messages_ w ++ messages
  ∧ listenerPosition (cacheMessages messages w) = listenerPosition w.
Proof.
  revert w. induction messages as [|m messages IH]; intros w; simpl.
  - by rewrite app_nil_r.
  - destruct (IH (DebugLogger.cacheMessage m w)) as [-> ->]. simpl.
    by rewrite <- app_assoc.
Qed.

(** X1. [getCachedMessages] returns the messages cached so far in the
    order they were cached, leaves the buffer empty (a second call
    returns nothing) and does not touch the listener. *)
Theorem DebugLogger_drains_in_order (messages : list string) (w : World) :
  let drained := DebugLogger.getCachedMessages (cacheMessages messages w) in
  drained.1 = messages_ w ++ messages
  ∧ (DebugLogger.getCachedMessages drained.2).1 = []
  ∧ messages_ (cacheMessages messages drained.2) = messages
  ∧ listenerPosition drained.2 = listenerPosition w.
Proof.
  destruct (cacheMessages_messages messages w) as [Hm Hl].
  simpl. repeat split; try done.
  by destruct (cacheMessages_messages messages
                 (mkWorld [] (listenerPosition (cacheMessages messages w))))
    as [-> _].
Qed.

(** ** AudioPlayer *)

Lemma AudioPlayer_setGlobalVolume_clamped (v : float) :
  clamped v (of_Z 0) (of_Z 100) (AudioPlayer.setGlobalVolume v).
Proof. apply setVolume_clamped. Qed.

(** X2. After [setGlobalVolume(v)], [getGlobalVolume()] is [v] clamped
    to the interval from 0 to 100 (0 for [v] up to 0, a negative zero
    included, 100 for [v] from 100 on, [v] itself strictly in between),
    for a music player and, whenever the call returns, for a sound
    player; a new player starts at 100. *)
Theorem setGlobalVolume_then_getGlobalVolume
    (b : Build) (v : float) (p : MusicPlayer.t) (sp : SoundPlayer.t)
    (w : World) :
  clamped v (of_Z 0) (of_Z 100)
    (MusicPlayer.getGlobalVolume (MusicPlayer.setGlobalVolume v p))
  ∧ (∀ sp' w', SoundPlayer.setGlobalVolume b v sp w = Done (sp', w') ->
       clamped v (of_Z 0) (of_Z 100) (SoundPlayer.getGlobalVolume sp'))
  ∧ MusicPlayer.getGlobalVolume (MusicPlayer.construct w).1 = of_Z 100
  ∧ SoundPlayer.getGlobalVolume (SoundPlayer.construct w).1 = of_Z 100.
Proof.
  split; [apply AudioPlayer_setGlobalVolume_clamped|].
  split; [|done].
  intros sp' w'. unfold SoundPlayer.setGlobalVolume.
  destruct (SoundPlayer.rescaleAll _ _ _ _) as [[effects finished]|];
    [|discriminate].
  intros H. injection H as <- _. apply AudioPlayer_setGlobalVolume_clamped.
Qed.

Lemma setGlobalVolume_then_getGlobalVolume_witness :
  ∃ sp' w',
    SoundPlayer.setGlobalVolume Release (of_Z 150) one_sound_player world_300
    = Done (sp', w')
    ∧ SoundPlayer.getGlobalVolume sp' = of_Z 100
    ∧ clamped (of_Z 150) (of_Z 0) (of_Z 100)
        (SoundPlayer.getGlobalVolume sp').
Proof.
  eexists _, _. split; [vm_compute; reflexivity|].
  split; [reflexivity|].
  apply (proj1 (proj2 (setGlobalVolume_then_getGlobalVolume Release (of_Z 150)
                         one_track_player one_sound_player world_300))
           _ world_300).
  vm_compute. reflexivity.
Defined.

Lemma neg_neg (x : float) : neg (neg x) = x.
Proof. by destruct x as [[]|[]| |[] m e]. Qed.

(** X3. [getListenerPosition] after [setListenerPosition(pos)] is
    [pos]; the call keeps the depth of the listener and the debug log. *)
Theorem listener_position_round_trip (pos : Vector2f) (w : World) :
  let w' := AudioPlayer.setListenerPosition pos w in
  AudioPlayer.getListenerPosition w' = pos
  ∧ depth w' = depth w
  ∧ messages_ w' = messages_ w.
Proof.
  destruct pos as [x y]. simpl. split; [|done].
  unfold AudioPlayer.getListenerPosition. simpl. by rewrite neg_neg.
Qed.

(** X4. The overloads of [play] that take no position put the source at
    the x and y of the listener, at depth 0: the track of a music player
    (with the loop flag as given, playing), and the new instance of a
    sound player. *)
Theorem play_without_position_is_under_listener
    (b : Build) (id : Z) (loop : bool)
    (p : MusicPlayer.t) (sp : SoundPlayer.t) (w : World) :
  (∀ track, MusicPlayer.tracks_ p !! id = Some track ->
     ∃ p' track',
       MusicPlayer.play b id loop p w = Done (p', w)
       ∧ MusicPlayer.tracks_ p' !! id = Some track'
       ∧ track_position track' = under_listener w
       ∧ Music.loop (MusicPlayer.music track') = loop
       ∧ track_status track' = Playing
       ∧ ∀ j, j ≠ id ->
           MusicPlayer.tracks_ p' !! j = MusicPlayer.tracks_ p !! j)
  ∧ (∀ props buf,
       SoundPlayer.soundProperties_ sp !! id = Some props ->
       SoundPlayer.soundBuffers_ sp !! id = Some buf ->
       ∃ sp' e,
         SoundPlayer.play b id sp w = Done (sp', w)
         ∧ last (SoundPlayer.sounds_ sp') = Some e
         ∧ effect_position e = under_listener w
         ∧ effect_status e = Playing
         ∧ Sound.buffer (SoundPlayer.sound e) = buf).
Proof.
  split.
  - intros track Htrack. unfold MusicPlayer.play, MusicPlayer.play_at.
    rewrite Htrack. eexists _, _. split; [reflexivity|]. simpl.
    split; [apply lookup_insert_eq|].
    split; [unfold track_position, under_listener; simpl;
            by rewrite neg_neg|].
    split; [done|]. split; [done|].
    intros j Hj. by rewrite lookup_insert_ne.
  - intros props buf Hprops Hbuf. unfold SoundPlayer.play.
    eexists _, _. split; [by apply SoundPlayer_play_at_loaded|].
    simpl. rewrite last_snoc. split; [done|].
    split; [unfold effect_position, under_listener; simpl;
            by rewrite neg_neg|].
    done.
Qed.

Lemma play_without_position_witness :
  (∃ track,
     MusicPlayer.tracks_ far_track_player !! 5%Z = Some track
     ∧ track_position track = mkVector3f (of_Z 3) (of_Z (-4)) (of_Z 0)
     ∧ Music.loop (MusicPlayer.music track) = false)
  ∧ under_listener world_listener_moved
    = mkVector3f (of_Z 10) (of_Z (-20)) (of_Z 0)
  ∧ (∃ p' track',
       MusicPlayer.play Release 5 true far_track_player world_listener_moved
       = Done (p', world_listener_moved)
       ∧ MusicPlayer.tracks_ p' !! 5%Z = Some track'
       ∧ track_position track' = under_listener world_listener_moved
       ∧ Music.loop (MusicPlayer.music track') = true
       ∧ track_status track' = Playing)
  ∧ (∃ sp' e,
       SoundPlayer.play Release 7 one_sound_player world_listener_moved
       = Done (sp', world_listener_moved)
       ∧ length (SoundPlayer.sounds_ sp') = 2%nat
       ∧ last (SoundPlayer.sounds_ sp') = Some e
       ∧ effect_position e = under_listener world_listener_moved
       ∧ effect_status e = Playing
       ∧ Sound.buffer (SoundPlayer.sound e) = mkSoundBuffer "B.wav").
Proof.
  destruct (play_without_position_is_under_listener Release 5 true
              far_track_player one_sound_player world_listener_moved)
    as [Hmusic _].
  destruct (play_without_position_is_under_listener Release 7 true
              far_track_player one_sound_player world_listener_moved)
    as [_ Hsound].
  split; [eexists; repeat split; reflexivity|].
  split; [reflexivity|]. split.
  - edestruct Hmusic as (p' & track' & Hplay & Htrack & Hpos & Hloop & Hst & _);
      [vm_compute; reflexivity|].
    by exists p', track'.
  - edestruct Hsound as (sp' & e & Hplay & Hlast & Hpos & Hst & Hbuf);
      [vm_compute; reflexivity | vm_compute; reflexivity|].
    exists sp', e. split; [exact Hplay|]. split; [|done].
    vm_compute in Hplay. by simplify_eq.
Defined.

(** ** ResourceHolder *)

(** X5. A successful [load] stores the resource under a free id, where
    [get] then finds it; under an id that is taken it changes nothing
    and [get] still returns the first resource. Other ids are not
    affected and nothing is logged. *)
Theorem ResourceHolder_load_then_get
    {Res : Type} (loadFromFile : string -> option Res)
    (b : Build) (filepath : string) (id : Z)
    (resourceMap_ : gmap Z Res) (w : World) (res : Res) :
  loadFromFile filepath = Some res ->
  ∃ m', ResourceHolder.load loadFromFile b filepath id resourceMap_ w
        = (m', w)
    ∧ (resourceMap_ !! id = None ->
       ResourceHolder.get b id m' w = Done (Some res, w))
    ∧ (∀ first, resourceMap_ !! id = Some first ->
         m' = resourceMap_
         ∧ ResourceHolder.get b id m' w = Done (Some first, w))
    ∧ (∀ j, j ≠ id -> m' !! j = resourceMap_ !! j).
Proof.
  intros Hload. unfold ResourceHolder.load. rewrite Hload.
  eexists. split; [reflexivity|]. unfold ResourceHolder.get, map_insert.
  split; [|split].
  - intros Hfree. rewrite Hfree, lookup_insert_eq. by destruct b.
  - intros first Hfirst. rewrite Hfirst. split; [done|].
    rewrite Hfirst. by destruct b.
  - intros j Hj. destruct (resourceMap_ !! id); [done|].
    by rewrite lookup_insert_ne.
Qed.

Lemma ResourceHolder_load_then_get_witness :
  ∃ m', ResourceHolder.load (SoundBuffer_loadFromFile every_file) Release
          "a.wav" 1 ∅ initialWorld = (m', initialWorld)
    ∧ ResourceHolder.get Release 1 m' initialWorld
      = Done (Some (mkSoundBuffer "a.wav"), initialWorld).
Proof.
  destruct (ResourceHolder_load_then_get
              (SoundBuffer_loadFromFile every_file) Release "a.wav" 1 ∅
              initialWorld (mkSoundBuffer "a.wav") eq_refl)
    as (m' & Hload & Hget & _).
  exists m'. split; [exact Hload|]. apply Hget. reflexivity.
Defined.

(** X6. [unload] of a stored id erases that entry and no other, after
    which the id is missing again; [unload] and [get] of a missing id
    log one message and change nothing in a debug build ([get] returns
    the null pointer) and are undefined in a release build. Unloading
    what was just loaded under a free id gives the holder back. *)
Theorem ResourceHolder_unload_and_missing_id
    {Res : Type} (loadFromFile : string -> option Res)
    (b : Build) (filepath : string) (id : Z)
    (resourceMap_ : gmap Z Res) (w : World) :
  (∀ res, resourceMap_ !! id = Some res ->
     ResourceHolder.unload b id resourceMap_ w
     = Done (delete id resourceMap_, w)
     ∧ delete id resourceMap_ !! id = None
     ∧ ∀ j, j ≠ id -> delete id resourceMap_ !! j = resourceMap_ !! j)
  ∧ (resourceMap_ !! id = None ->
     ResourceHolder.unload Debug id resourceMap_ w
     = Done (resourceMap_,
             DebugLogger.cacheMessage
               "ae::ResourceHolder::unload - Unable to find resource" w)
     ∧ ResourceHolder.get Debug id resourceMap_ w
       = Done (None,
               DebugLogger.cacheMessage
                 "ae::ResourceHolder::get - Unable to find resource" w)
     ∧ ResourceHolder.unload Release id resourceMap_ w = Undefined
     ∧ ResourceHolder.get Release id resourceMap_ w = Undefined)
  ∧ (∀ res, resourceMap_ !! id = None ->
       loadFromFile filepath = Some res ->
       ResourceHolder.unload b id
         (ResourceHolder.load loadFromFile b filepath id resourceMap_ w).1 w
       = Done (resourceMap_, w)).
Proof.
  unfold ResourceHolder.unload, ResourceHolder.get, ResourceHolder.load.
  split; [|split].
  - intros res Hres. rewrite Hres. split; [done|].
    split; [apply lookup_delete_eq|].
    intros j Hj. by apply lookup_delete_ne.
  - intros Hnone. by rewrite Hnone.
  - intros res Hnone Hload. rewrite Hload. simpl.
    rewrite map_insert_fresh by done.
    rewrite lookup_insert_eq, delete_insert_id by done. by destruct b.
Qed.

Lemma ResourceHolder_unload_witness :
  ResourceHolder.unload Release 1
    (ResourceHolder.load (SoundBuffer_loadFromFile every_file) Release
       "a.wav" 1 (<[2%Z := mkSoundBuffer "b.wav"]> ∅) initialWorld).1
    initialWorld
  = Done (<[2%Z := mkSoundBuffer "b.wav"]> ∅, initialWorld).
Proof.
  apply (proj2 (proj2 (ResourceHolder_unload_and_missing_id
                         (SoundBuffer_loadFromFile every_file) Release
                         "a.wav" 1 (<[2%Z := mkSoundBuffer "b.wav"]> ∅)
                         initialWorld))
           (mkSoundBuffer "a.wav")); reflexivity.
Defined.

(** ** MusicPlayer *)

Section StdMapBelow.

Context {V : Type}.

(** Inserting a key below the last key keeps the last entry. *)
Lemma rbegin_insert_below (m : gmap Z V) (k last : Z) (v x : V) :
  rbegin m = Some (last, x) -> (k < last)%Z ->
  rbegin (<[k := v]> m) = Some (last, x).
Proof.
  intros Hlast Hlt. apply rbegin_Some in Hlast as [Hx Hmax].
  destruct (rbegin (<[k := v]> m)) as [[k' v']|] eqn:E.
  - apply rbegin_Some in E as [Hk' Hmax'].
    assert (last <= k')%Z as Hle.
    { apply Hmax'. rewrite lookup_insert_ne by lia. by eexists. }
    rewrite lookup_insert_ne in Hk' by lia.
    assert (k' <= last)%Z by (apply Hmax; by eexists).
    assert (k' = last) as -> by lia. by simplify_eq.
  - apply rbegin_None in E.
    apply (f_equal (fun m' => m' !! k)) in E.
    by rewrite lookup_insert_eq, lookup_empty in E.
Qed.

End StdMapBelow.

Lemma setupTrack_opens_last (b : Build) (fs : FileSystem)
    (properties : AudioProperties.t) (filepath : string)
    (p : MusicPlayer.t) (w : World) (last : Z)
    (track : MusicPlayer.MusicTrack) :
  rbegin (MusicPlayer.tracks_ p) = Some (last, track) ->
  fs filepath = true ->
  MusicPlayer.setupTrack b fs properties filepath p w
  = Done (MusicPlayer.mk (MusicPlayer.globalVolume_ p)
            (<[last := opened_track properties filepath track]>
               (MusicPlayer.tracks_ p)), w).
Proof.
  intros Hlast Hfs. unfold MusicPlayer.setupTrack, Music.openFromFile.
  by rewrite Hlast, Hfs.
Qed.

Lemma MusicPlayer_load_above (b : Build) (fs : FileSystem)
    (filepath : string) (properties : AudioProperties.t) (id : Z)
    (p : MusicPlayer.t) (w : World) :
  (∀ j, is_Some (MusicPlayer.tracks_ p !! j) -> (j < id)%Z) ->
  fs filepath = true ->
  let added properties :=
    opened_track properties filepath
      (MusicPlayer.newTrack (AudioProperties.getVolume properties)) in
  MusicPlayer.load_with b fs filepath properties id p w
  = Done (MusicPlayer.mk (MusicPlayer.globalVolume_ p)
            (<[id := added properties]> (MusicPlayer.tracks_ p)), w)
  ∧ MusicPlayer.load b fs filepath id p w
    = Done (MusicPlayer.mk (MusicPlayer.globalVolume_ p)
              (<[id := added (AudioProperties.default w)]>
                 (MusicPlayer.tracks_ p)), w).
Proof.
  intros Habove Hfs added.
  assert (MusicPlayer.tracks_ p !! id = None) as Hfresh.
  { destruct (MusicPlayer.tracks_ p !! id) eqn:E; [|done].
    assert (id < id)%Z by (apply Habove; by eexists). lia. }
  unfold MusicPlayer.load, MusicPlayer.load_with. rewrite Hfresh.
  cbv zeta.
  rewrite !(setupTrack_opens_last _ _ _ _ _ _ id
              (MusicPlayer.newTrack _))
    by (done || (simpl; rewrite map_insert_fresh by done;
                 by apply rbegin_insert_greatest)).
  simpl. rewrite !map_insert_fresh by done.
  by rewrite !insert_insert_eq.
Qed.

(** X7. Loading an openable file under an id above every loaded id
    adds one track: stopped, bound to the file, with the attenuation,
    pitch, 3D minimal distance and relative flag of the properties, the
    engine's default volume, and the volume of the properties as its
    nominal volume. The other tracks, the global volume and the debug
    log are unchanged. [load(filepath, id)] does so with the default
    properties. *)
Theorem MusicPlayer_load_above_adds_configured_track
    (b : Build) (fs : FileSystem) (filepath : string)
    (properties : AudioProperties.t) (id : Z)
    (p : MusicPlayer.t) (w : World) :
  (∀ j, is_Some (MusicPlayer.tracks_ p !! j) -> (j < id)%Z) ->
  fs filepath = true ->
  let added properties :=
    opened_track properties filepath
      (MusicPlayer.newTrack (AudioProperties.getVolume properties)) in
  MusicPlayer.load_with b fs filepath properties id p w
  = Done (MusicPlayer.mk (MusicPlayer.globalVolume_ p)
            (<[id := added properties]> (MusicPlayer.tracks_ p)), w)
  ∧ MusicPlayer.load b fs filepath id p w
    = Done (MusicPlayer.mk (MusicPlayer.globalVolume_ p)
              (<[id := added (AudioProperties.default w)]>
                 (MusicPlayer.tracks_ p)), w)
  ∧ track_status (added properties) = Stopped
  ∧ track_volume (added properties) = of_Z 100
  ∧ MusicPlayer.VOLUME (added properties)
    = AudioProperties.getVolume properties
  ∧ Music.file (MusicPlayer.music (added properties)) = Some filepath
  ∧ SoundSource.attenuation
      (Music.source (MusicPlayer.music (added properties)))
    = AudioProperties.getAttenuation properties
  ∧ SoundSource.pitch (Music.source (MusicPlayer.music (added properties)))
    = AudioProperties.getPitch properties
  ∧ SoundSource.minDistance
      (Music.source (MusicPlayer.music (added properties)))
    = AudioProperties.getMinDistance3D properties
  ∧ SoundSource.relativeToListener
      (Music.source (MusicPlayer.music (added properties)))
    = AudioProperties.isRelativeToListener properties.
Proof.
  intros Habove Hfs added.
  destruct (MusicPlayer_load_above b fs filepath properties id p w
              Habove Hfs) as [H1 H2].
  split; [exact H1|]. split; [exact H2|]. done.
Qed.

Lemma MusicPlayer_load_above_witness :
  MusicPlayer.load Release every_file "next.ogg" 9 one_track_player world_300
  = Done (MusicPlayer.mk (MusicPlayer.globalVolume_ one_track_player)
            (<[9%Z := opened_track (AudioProperties.default world_300)
                        "next.ogg"
                        (MusicPlayer.newTrack
                           (AudioProperties.getVolume
                              (AudioProperties.default world_300)))]>
               (MusicPlayer.tracks_ one_track_player)), world_300).
Proof.
  destruct (MusicPlayer_load_above_adds_configured_track Release every_file
              "next.ogg" (AudioProperties.default world_300) 9
              one_track_player world_300)
    as (_ & H & _).
  - intros j [track Hj].
    destruct (decide (j = 5%Z)) as [->|Hne]; [done|].
    unfold one_track_player in Hj. simpl in Hj.
    by rewrite lookup_insert_ne, lookup_empty in Hj.
  - reflexivity.
  - exact H.
Defined.

(** X8. Loading an openable file under a free id that is below the
    last loaded id [last] inserts an entry for the id that is never
    opened (no file, default parameters), and opens the file on the track
    of [last] instead: that track is stopped, bound to the new file and
    given the spatial parameters of the properties. *)
Theorem MusicPlayer_load_below_opens_last_track
    (b : Build) (fs : FileSystem) (filepath : string)
    (properties : AudioProperties.t) (id last : Z)
    (track : MusicPlayer.MusicTrack) (p : MusicPlayer.t) (w : World) :
  MusicPlayer.tracks_ p !! id = None ->
  rbegin (MusicPlayer.tracks_ p) = Some (last, track) ->
  (id < last)%Z ->
  fs filepath = true ->
  ∃ p', MusicPlayer.load_with b fs filepath properties id p w = Done (p', w)
    ∧ MusicPlayer.tracks_ p' !! id
      = Some (MusicPlayer.newTrack (AudioProperties.getVolume properties))
    ∧ Music.file (MusicPlayer.music
                    (MusicPlayer.newTrack
                       (AudioProperties.getVolume properties))) = None
    ∧ MusicPlayer.tracks_ p' !! last
      = Some (opened_track properties filepath track)
    ∧ (∀ j, j ≠ id -> j ≠ last ->
         MusicPlayer.tracks_ p' !! j = MusicPlayer.tracks_ p !! j).
Proof.
  intros Hfresh Hlast Hlt Hfs.
  unfold MusicPlayer.load_with. rewrite Hfresh. cbv zeta.
  rewrite (setupTrack_opens_last _ _ _ _ _ _ last track)
    by (done || (simpl; rewrite map_insert_fresh by done;
                 by apply rbegin_insert_below)).
  eexists. split; [reflexivity|]. simpl.
  rewrite map_insert_fresh by done.
  split; [by rewrite lookup_insert_ne, lookup_insert_eq by lia|].
  split; [done|].
  split; [by rewrite lookup_insert_eq|].
  intros j Hid Hl. by rewrite !lookup_insert_ne.
Qed.

Lemma MusicPlayer_load_below_witness :
  ∃ p', MusicPlayer.load_with Release every_file "other.ogg"
          (AudioProperties.default world_300) 3 one_track_player world_300
        = Done (p', world_300)
    ∧ MusicPlayer.tracks_ p' !! 3%Z
      = Some (MusicPlayer.newTrack
                (AudioProperties.getVolume (AudioProperties.default world_300)))
    ∧ MusicPlayer.tracks_ p' !! 5%Z
      = Some (opened_track (AudioProperties.default world_300) "other.ogg"
                playing_track).
Proof.
  destruct (MusicPlayer_load_below_opens_last_track Release every_file
              "other.ogg" (AudioProperties.default world_300) 3 5
              playing_track one_track_player world_300)
    as (p' & Hload & H3 & _ & H5 & _); try reflexivity.
  by exists p'.
Defined.

(** X9. With no track loaded under [id], a debug build of [play]
    (both overloads), [pause(id, flag)], [stop(id)],
    [setMusicSourcePosition] and [unload] leaves the player as it was
    and caches one message, and [getMusicStatus] answers [Stopped]; a
    release build of each of them is undefined. *)
Theorem MusicPlayer_missing_id
    (position : Vector2f) (id : Z) (loop flag : bool)
    (p : MusicPlayer.t) (w : World) :
  MusicPlayer.tracks_ p !! id = None ->
  let logged message := Done (p, DebugLogger.cacheMessage message w) in
  (MusicPlayer.play_at Debug position id loop p w
   = logged "ae::MusicPlayer<T>::play - Unable to find music track"
   ∧ MusicPlayer.play Debug id loop p w
     = logged "ae::MusicPlayer<T>::play - Unable to find music track"
   ∧ MusicPlayer.pause_id Debug id flag p w
     = logged "ae::MusicPlayer<T>::pause - Unable to find music track"
   ∧ MusicPlayer.stop_id Debug id p w
     = logged "ae::MusicPlayer<T>::stop - Unable to find music track"
   ∧ MusicPlayer.setMusicSourcePosition Debug position id p w
     = logged
         "ae::MusicPlayer<T>::setMusicSourcePosition - Unable to find music track"
   ∧ MusicPlayer.unload Debug id p w
     = logged
         "ae::MusicPlayer<T>::unload - The ID provided isn't associated with any music track"
   ∧ MusicPlayer.getMusicStatus Debug id p w
     = Done (Stopped,
             DebugLogger.cacheMessage
               "ae::MusicPlayer<T>::getMusicStatus - Unable to find music track"
               w))
  ∧ (MusicPlayer.play_at Release position id loop p w = Undefined
     ∧ MusicPlayer.play Release id loop p w = Undefined
     ∧ MusicPlayer.pause_id Release id flag p w = Undefined
     ∧ MusicPlayer.stop_id Release id p w = Undefined
     ∧ MusicPlayer.setMusicSourcePosition Release position id p w = Undefined
     ∧ MusicPlayer.unload Release id p w = Undefined
     ∧ MusicPlayer.getMusicStatus Release id p w = Undefined).
Proof.
  intros Hnone logged.
  unfold MusicPlayer.play, MusicPlayer.play_at, MusicPlayer.pause_id,
    MusicPlayer.stop_id, MusicPlayer.setMusicSourcePosition,
    MusicPlayer.unload, MusicPlayer.getMusicStatus.
  rewrite !Hnone. repeat split.
Qed.

Lemma MusicPlayer_missing_id_witness :
  MusicPlayer.stop_id Debug 8 one_track_player initialWorld
  = Done (one_track_player,
          DebugLogger.cacheMessage
            "ae::MusicPlayer<T>::stop - Unable to find music track"
            initialWorld)
  ∧ MusicPlayer.stop_id Release 8 one_track_player initialWorld = Undefined.
Proof.
  destruct (MusicPlayer_missing_id (mkVector2f (of_Z 0) (of_Z 0)) 8 true true
              one_track_player initialWorld)
    as [(_ & _ & _ & Hd & _) (_ & _ & _ & Hr & _)]; [reflexivity|].
  split; [exact Hd | exact Hr].
Defined.

Lemma stopped_track (track : MusicPlayer.MusicTrack) :
  MusicPlayer.onMusic (Music.onSource SoundSource.stop) track
  = track_with_status Stopped track.
Proof. reflexivity. Qed.

Lemma paused_track_stopped (track : MusicPlayer.MusicTrack) :
  paused_track (track_with_status Stopped track)
  = track_with_status Stopped track
  ∧ resumed_track (track_with_status Stopped track)
    = track_with_status Stopped track.
Proof. split; reflexivity. Qed.

(** X10. [stop()] leaves every track stopped and changes nothing else
    of it; [stop(id)] does so for the track of a loaded id only. A
    [pause(true)] or [pause(false)] after [stop()] changes nothing:
    stopped tracks are neither paused nor resumed. *)
Theorem MusicPlayer_stop_stops_and_pause_skips_stopped
    (b : Build) (id : Z) (flag : bool) (p : MusicPlayer.t) (w : World) :
  MusicPlayer.tracks_ (MusicPlayer.stop p) !! id
  = track_with_status Stopped <$> MusicPlayer.tracks_ p !! id
  ∧ MusicPlayer.globalVolume_ (MusicPlayer.stop p)
    = MusicPlayer.globalVolume_ p
  ∧ MusicPlayer.pause flag (MusicPlayer.stop p) = MusicPlayer.stop p
  ∧ (∀ track, MusicPlayer.tracks_ p !! id = Some track ->
       ∃ p', MusicPlayer.stop_id b id p w = Done (p', w)
         ∧ MusicPlayer.tracks_ p' !! id
           = Some (track_with_status Stopped track)
         ∧ (∀ j, j ≠ id ->
              MusicPlayer.tracks_ p' !! j = MusicPlayer.tracks_ p !! j)
         ∧ MusicPlayer.globalVolume_ p' = MusicPlayer.globalVolume_ p).
Proof.
  split; [|split; [done|split]].
  - simpl. by rewrite lookup_fmap.
  - unfold MusicPlayer.pause, MusicPlayer.stop. simpl.
    destruct flag; f_equal; apply map_eq; intros j;
      rewrite !lookup_fmap;
      destruct (MusicPlayer.tracks_ p !! j) as [track|]; simpl;
      try done; f_equal;
      rewrite ?pauseTrack_paused_track, ?resumeTrack_resumed_track,
        stopped_track;
      apply paused_track_stopped.
  - intros track Htrack. unfold MusicPlayer.stop_id. rewrite Htrack.
    eexists. split; [reflexivity|]. simpl.
    split; [by rewrite lookup_insert_eq|].
    split; [|done]. intros j Hj. by rewrite lookup_insert_ne.
Qed.

Lemma MusicPlayer_stop_witness :
  ∃ p', MusicPlayer.stop_id Release 5 one_track_player initialWorld
        = Done (p', initialWorld)
    ∧ MusicPlayer.tracks_ p' !! 5%Z
      = Some (track_with_status Stopped playing_track).
Proof.
  destruct (MusicPlayer_stop_stops_and_pause_skips_stopped Release 5 true
              one_track_player initialWorld)
    as (_ & _ & _ & H).
  destruct (H playing_track eq_refl) as (p' & Hstop & Htrack & _).
  by exists p'.
Defined.

Lemma resumed_paused_track (track : MusicPlayer.MusicTrack) :
  resumed_track (paused_track track) = resumed_after_pause track.
Proof. destruct track as [[[[] ? ? ? ? ? ?] l f] V]; reflexivity. Qed.

Lemma paused_paused_track (track : MusicPlayer.MusicTrack) :
  paused_track (paused_track track) = paused_track track.
Proof. destruct track as [[[[] ? ? ? ? ? ?] l f] V]; reflexivity. Qed.

(** X11. [pause(true)] followed by [pause(false)] leaves every track
    that was playing or paused in the playing status, so a track
    that had been paused on its own before is resumed as well; stopped
    tracks stay stopped and no other field changes. [pause(true)] twice
    is [pause(true)] once. *)
Theorem MusicPlayer_pause_then_resume (id : Z) (p : MusicPlayer.t) :
  MusicPlayer.tracks_ (MusicPlayer.pause false (MusicPlayer.pause true p))
    !! id
  = resumed_after_pause <$> MusicPlayer.tracks_ p !! id
  ∧ MusicPlayer.pause true (MusicPlayer.pause true p)
    = MusicPlayer.pause true p.
Proof.
  split.
  - simpl. rewrite !lookup_fmap.
    destruct (MusicPlayer.tracks_ p !! id) as [track|]; simpl; [|done].
    by rewrite pauseTrack_paused_track, resumeTrack_resumed_track,
      resumed_paused_track.
  - unfold MusicPlayer.pause. simpl. f_equal. apply map_eq. intros j.
    rewrite !lookup_fmap.
    destruct (MusicPlayer.tracks_ p !! j) as [track|]; simpl; [|done].
    by rewrite !pauseTrack_paused_track, paused_paused_track.
Qed.

(** X12. [unload] of a loaded id erases the track of the id, whatever
    its status, and keeps the other tracks and the global volume; the id
    is then free, so that a further [unload] of it finds no track. A
    track loaded from an openable file under an id above every loaded id
    and unloaded at once gives the player back. *)
Theorem MusicPlayer_unload_erases_track
    (b : Build) (fs : FileSystem) (filepath : string)
    (properties : AudioProperties.t) (id : Z)
    (p : MusicPlayer.t) (w : World) :
  (∀ track, MusicPlayer.tracks_ p !! id = Some track ->
     ∃ p', MusicPlayer.unload b id p w = Done (p', w)
       ∧ MusicPlayer.tracks_ p' !! id = None
       ∧ (∀ j, j ≠ id ->
            MusicPlayer.tracks_ p' !! j = MusicPlayer.tracks_ p !! j)
       ∧ MusicPlayer.globalVolume_ p' = MusicPlayer.globalVolume_ p
       ∧ MusicPlayer.unload Release id p' w = Undefined)
  ∧ ((∀ j, is_Some (MusicPlayer.tracks_ p !! j) -> (j < id)%Z) ->
     fs filepath = true ->
     ∃ p', MusicPlayer.load_with b fs filepath properties id p w
           = Done (p', w)
       ∧ MusicPlayer.unload b id p' w = Done (p, w)).
Proof.
  split.
  - intros track Htrack. unfold MusicPlayer.unload at 1. rewrite Htrack.
    eexists. split; [reflexivity|]. simpl.
    split; [apply lookup_delete_eq|].
    split; [intros j Hj; by apply lookup_delete_ne|].
    split; [done|].
    unfold MusicPlayer.unload. simpl. by rewrite lookup_delete_eq.
  - intros Habove Hfs.
    destruct (MusicPlayer_load_above b fs filepath properties id p w
                Habove Hfs) as (Hload & _).
    eexists. split; [exact Hload|].
    unfold MusicPlayer.unload. simpl. rewrite lookup_insert_eq.
    rewrite delete_insert_id; [by destruct p|].
    destruct (MusicPlayer.tracks_ p !! id) eqn:E; [|done].
    assert (id < id)%Z by (apply Habove; by eexists). lia.
Qed.

Lemma MusicPlayer_unload_witness :
  ∃ p', MusicPlayer.unload Release 5 one_track_player initialWorld
        = Done (p', initialWorld)
    ∧ MusicPlayer.tracks_ p' !! 5%Z = None.
Proof.
  destruct (MusicPlayer_unload_erases_track Release every_file "a.ogg"
              (AudioProperties.default initialWorld) 5 one_track_player
              initialWorld) as [H _].
  destruct (H playing_track eq_refl) as (p' & Hunload & Hnone & _).
  by exists p'.
Defined.

(** X13. The status [getMusicStatus] reports follows the calls made on
    a loaded track: playing after [play], paused after a [pause(id,
    true)] that follows, playing again after [pause(id, false)], and
    stopped after [stop(id)], from which [pause(id, false)] does not
    resume. *)
Theorem MusicPlayer_status_follows_calls
    (b : Build) (position : Vector2f) (id : Z) (loop : bool)
    (p : MusicPlayer.t) (w : World) :
  is_Some (MusicPlayer.tracks_ p !! id) ->
  ∃ p1 p2 p3 p4 p5,
    MusicPlayer.play_at b position id loop p w = Done (p1, w)
    ∧ MusicPlayer.getMusicStatus b id p1 w = Done (Playing, w)
    ∧ MusicPlayer.pause_id b id true p1 w = Done (p2, w)
    ∧ MusicPlayer.getMusicStatus b id p2 w = Done (Paused, w)
    ∧ MusicPlayer.pause_id b id false p2 w = Done (p3, w)
    ∧ MusicPlayer.getMusicStatus b id p3 w = Done (Playing, w)
    ∧ MusicPlayer.stop_id b id p3 w = Done (p4, w)
    ∧ MusicPlayer.getMusicStatus b id p4 w = Done (Stopped, w)
    ∧ MusicPlayer.pause_id b id false p4 w = Done (p5, w)
    ∧ MusicPlayer.getMusicStatus b id p5 w = Done (Stopped, w).
Proof.
  intros [track Htrack].
  unfold MusicPlayer.play_at. rewrite Htrack.
  eexists _, _, _, _, _. split; [reflexivity|].
  unfold MusicPlayer.getMusicStatus, MusicPlayer.pause_id,
    MusicPlayer.stop_id. simpl.
  repeat (rewrite lookup_insert_eq; simpl).
  split; [by destruct b|]. split; [reflexivity|]. simpl.
  repeat (rewrite lookup_insert_eq; simpl).
  split; [by destruct b|]. split; [reflexivity|]. simpl.
  repeat (rewrite lookup_insert_eq; simpl).
  split; [by destruct b|]. split; [reflexivity|]. simpl.
  repeat (rewrite lookup_insert_eq; simpl).
  split; [by destruct b|]. split; [reflexivity|]. simpl.
  repeat (rewrite lookup_insert_eq; simpl).
  by destruct b.
Qed.

Lemma MusicPlayer_status_follows_calls_witness :
  ∃ p1,
    MusicPlayer.play_at Release (mkVector2f (of_Z 1) (of_Z 2)) 5 false
      one_track_player initialWorld = Done (p1, initialWorld)
    ∧ MusicPlayer.getMusicStatus Release 5 p1 initialWorld
      = Done (Playing, initialWorld).
Proof.
  destruct (MusicPlayer_status_follows_calls Release
              (mkVector2f (of_Z 1) (of_Z 2)) 5 false one_track_player
              initialWorld)
    as (p1 & _ & _ & _ & _ & H1 & H2 & _).
  - exists playing_track. reflexivity.
  - by exists p1.
Defined.

(** ** SoundPlayer *)

Lemma filter_all {A : Type} (P : A -> Prop) `{∀ x, Decision (P x)}
    (l : list A) :
  (∀ x, x ∈ l -> P x) -> filter P l = l.
Proof.
  induction l as [|x l IH]; intros Hall; [done|].
  rewrite filter_cons_True by (apply Hall; left).
  rewrite IH; [done|]. intros y Hy. apply Hall. by right.
Qed.

Lemma filter_none {A : Type} (P : A -> Prop) `{∀ x, Decision (P x)}
    (l : list A) :
  (∀ x, x ∈ l -> ¬ P x) -> filter P l = [].
Proof.
  induction l as [|x l IH]; intros Hall; [done|].
  rewrite filter_cons_False by (apply Hall; left).
  apply IH. intros y Hy. apply Hall. by right.
Qed.

(** X14. [stop()] empties the list of active instances, whatever their
    statuses, and keeps the loaded buffers, the properties and the
    global volume: a later [play] of a loaded id starts from one
    instance. *)
Theorem SoundPlayer_stop_empties_active_list
    (b : Build) (position : Vector2f) (i : Z) (p : SoundPlayer.t)
    (w : World) :
  SoundPlayer.sounds_ (SoundPlayer.stop p) = []
  ∧ SoundPlayer.soundBuffers_ (SoundPlayer.stop p)
    = SoundPlayer.soundBuffers_ p
  ∧ SoundPlayer.soundProperties_ (SoundPlayer.stop p)
    = SoundPlayer.soundProperties_ p
  ∧ SoundPlayer.globalVolume_ (SoundPlayer.stop p)
    = SoundPlayer.globalVolume_ p
  ∧ (∀ props buf,
       SoundPlayer.soundProperties_ p !! i = Some props ->
       SoundPlayer.soundBuffers_ p !! i = Some buf ->
       ∃ p', SoundPlayer.play_at b position i (SoundPlayer.stop p) w
             = Done (p', w)
         ∧ SoundPlayer.sounds_ p'
           = [new_instance (SoundPlayer.globalVolume_ p) position props
                buf i]).
Proof.
  assert (SoundPlayer.sounds_ (SoundPlayer.stop p) = []) as Hempty.
  { unfold SoundPlayer.stop, SoundPlayer.removeStoppedSounds. simpl.
    apply filter_none. intros e (e0 & -> & _)%list_elem_of_fmap Hne.
    by apply Hne. }
  split; [done|]. split; [done|]. split; [done|]. split; [done|].
  intros props buf Hprops Hbuf. eexists.
  split; [apply SoundPlayer_play_at_loaded; by simpl|].
  cbn [SoundPlayer.sounds_ SoundPlayer.removeStoppedSounds].
  by rewrite Hempty.
Qed.

Lemma SoundPlayer_stop_witness :
  ∃ p', SoundPlayer.play_at Release (mkVector2f (of_Z 3) (of_Z 4)) 7
          (SoundPlayer.stop one_sound_player) world_300
        = Done (p', world_300)
    ∧ length (SoundPlayer.sounds_ p') = 1.
Proof.
  destruct (SoundPlayer_stop_empties_active_list Release
              (mkVector2f (of_Z 3) (of_Z 4)) 7 one_sound_player world_300)
    as (_ & _ & _ & _ & H).
  destruct (H (AudioProperties.construct (of_Z 40) (of_Z 1) (of_Z 1)
                 (of_Z 1) false world_300)
              (mkSoundBuffer "B.wav"))
    as (p' & Hplay & Hsounds).
  - vm_compute. reflexivity.
  - vm_compute. reflexivity.
  - exists p'. split; [exact Hplay|]. by rewrite Hsounds.
Defined.

(** X15. Every call of [play] first drops the instances that have
    stopped: when it returns, no stopped instance is left, the others
    are kept in their order, and at most the new instance was added.
    That also holds of a debug build asked for an id without
    properties, which adds nothing and logs one message; the release
    build is then undefined. *)
Theorem SoundPlayer_play_prunes_stopped
    (b : Build) (position : Vector2f) (i : Z)
    (p p' : SoundPlayer.t) (w w' : World) :
  let kept :=
    filter (fun e => effect_status e ≠ Stopped) (SoundPlayer.sounds_ p) in
  (SoundPlayer.play_at b position i p w = Done (p', w') ->
   Forall (fun e => effect_status e ≠ Stopped) (SoundPlayer.sounds_ p')
   ∧ (SoundPlayer.sounds_ p' = kept
      ∨ ∃ e, SoundPlayer.sounds_ p' = kept ++ [e]
             ∧ SoundPlayer.id e = i ∧ effect_status e = Playing))
  ∧ (SoundPlayer.soundProperties_ p !! i = None ->
     SoundPlayer.play_at Debug position i p w
     = Done (SoundPlayer.removeStoppedSounds p,
             DebugLogger.cacheMessage
               "ae::SoundPlayer<T>::play - Unable to find sound effect" w)
     ∧ SoundPlayer.play_at Release position i p w = Undefined).
Proof.
  intros kept.
  assert (Forall (fun e => effect_status e ≠ Stopped) kept) as Hkept.
  { apply Forall_forall. by intros e [He _]%list_elem_of_filter. }
  split.
  - unfold SoundPlayer.play_at, ResourceHolder.get. simpl.
    destruct (SoundPlayer.soundProperties_ p !! i) as [props|] eqn:Ep.
    + destruct (SoundPlayer.soundBuffers_ p !! i) as [buf|] eqn:Eb;
        [|destruct b; discriminate].
      intros H.
      assert (SoundPlayer.sounds_ p'
              = kept ++ [new_instance (SoundPlayer.globalVolume_ p)
                           position props buf i]) as Hs.
      { destruct b; by simplify_eq. }
      rewrite Hs. split.
      * apply Forall_app. split; [done|].
        apply Forall_singleton. discriminate.
      * right. by eexists.
    + destruct b; [|discriminate]. intros H. simplify_eq. simpl.
      split; [done | by left].
  - intros Hnone. unfold SoundPlayer.play_at. simpl. by rewrite Hnone.
Qed.

Lemma SoundPlayer_play_prunes_witness :
  ∃ p',
    effect_status
      <$> SoundPlayer.sounds_
            (sound_player_with [Stopped; Playing; Stopped; Paused])
    = [Stopped; Playing; Stopped; Paused]
    ∧ SoundPlayer.play_at Release (mkVector2f (of_Z 3) (of_Z 4)) 7
        (sound_player_with [Stopped; Playing; Stopped; Paused]) world_300
      = Done (p', world_300)
    ∧ effect_status <$> SoundPlayer.sounds_ p' = [Playing; Paused; Playing]
    ∧ Forall (fun e => effect_status e ≠ Stopped) (SoundPlayer.sounds_ p').
Proof.
  eexists. split; [reflexivity|].
  split; [vm_compute; reflexivity|]. split; [reflexivity|].
  match goal with
  | |- Forall _ (SoundPlayer.sounds_ ?p') =>
      destruct (SoundPlayer_play_prunes_stopped Release
                  (mkVector2f (of_Z 3) (of_Z 4)) 7
                  (sound_player_with [Stopped; Playing; Stopped; Paused])
                  p' world_300 world_300)
        as [H _]
  end.
  apply H. vm_compute. reflexivity.
Defined.

(** X16. [load] of a file that cannot be loaded still records the
    properties under a free id, without a buffer: the id then has
    properties but [play] of it is undefined in both builds, since it
    dereferences the null pointer [get] returns. *)
Theorem SoundPlayer_failed_load_then_play_undefined
    (b b' : Build) (fs : FileSystem) (filepath : string)
    (properties : AudioProperties.t) (position : Vector2f) (i : Z)
    (p : SoundPlayer.t) (w : World) :
  fs filepath = false ->
  SoundPlayer.soundProperties_ p !! i = None ->
  SoundPlayer.soundBuffers_ p !! i = None ->
  ∀ p' w', (p', w') = SoundPlayer.load_with b fs filepath properties i p w ->
    SoundPlayer.soundProperties_ p' !! i = Some properties
    ∧ SoundPlayer.soundBuffers_ p' = SoundPlayer.soundBuffers_ p
    ∧ SoundPlayer.sounds_ p' = SoundPlayer.sounds_ p
    ∧ w' = debugMessage b
             ("ae::ResourceHolder::load - Failed to load " ++ dquote
                ++ filepath ++ dquote) w
    ∧ SoundPlayer.play_at b' position i p' w' = Undefined.
Proof.
  intros Hfs Hprops Hbuf p' w'.
  unfold SoundPlayer.load_with, ResourceHolder.load,
    SoundBuffer_loadFromFile.
  rewrite Hfs. intros H. injection H as -> ->. simpl.
  rewrite map_insert_fresh by done.
  split; [apply lookup_insert_eq|]. split; [done|]. split; [done|].
  split; [done|].
  unfold SoundPlayer.play_at, ResourceHolder.get. simpl.
  rewrite lookup_insert_eq, Hbuf. by destruct b'.
Qed.

Lemma SoundPlayer_failed_load_witness :
  SoundPlayer.play_at Debug (mkVector2f (of_Z 0) (of_Z 0)) 2
    (SoundPlayer.load_with Debug no_file "gone.wav"
       (AudioProperties.default world_300) 2 one_sound_player world_300).1
    (SoundPlayer.load_with Debug no_file "gone.wav"
       (AudioProperties.default world_300) 2 one_sound_player world_300).2
  = Undefined.
Proof.
  apply (SoundPlayer_failed_load_then_play_undefined Debug Debug no_file
           "gone.wav" (AudioProperties.default world_300)
           (mkVector2f (of_Z 0) (of_Z 0)) 2 one_sound_player world_300);
    vm_compute; reflexivity.
Defined.

(** X17. Loading an openable file under an id that has neither
    properties nor a buffer and unloading the id at once gives the
    player back, in a state where every active instance has properties:
    the two maps, the active list and the debug log are as before. *)
Theorem SoundPlayer_load_then_unload
    (b : Build) (fs : FileSystem) (filepath : string)
    (properties : AudioProperties.t) (i : Z)
    (p : SoundPlayer.t) (w : World) :
  fs filepath = true ->
  SoundPlayer.soundProperties_ p !! i = None ->
  SoundPlayer.soundBuffers_ p !! i = None ->
  instances_have_properties p ->
  SoundPlayer.unload b i
    (SoundPlayer.load_with b fs filepath properties i p w).1
    (SoundPlayer.load_with b fs filepath properties i p w).2
  = Done (p, w)
  ∧ SoundPlayer.unload b i (SoundPlayer.load b fs filepath i p w).1
      (SoundPlayer.load b fs filepath i p w).2
    = Done (p, w).
Proof.
  intros Hfs Hprops Hbuf Hwf.
  assert (filter (fun e => SoundPlayer.id e ≠ i) (SoundPlayer.sounds_ p)
          = SoundPlayer.sounds_ p) as Hfilter.
  { apply filter_all. intros e He Heq.
    destruct (Hwf e He) as [x Hx]. congruence. }
  unfold SoundPlayer.load_with, SoundPlayer.load, ResourceHolder.load,
    SoundBuffer_loadFromFile.
  rewrite Hfs. simpl.
  unfold SoundPlayer.unload, ResourceHolder.unload. simpl.
  rewrite !map_insert_fresh by done.
  rewrite !lookup_insert_eq, !delete_insert_id by done.
  rewrite Hfilter. destruct p. by destruct b.
Qed.

Lemma SoundPlayer_load_then_unload_witness :
  SoundPlayer.unload Release 2
    (SoundPlayer.load Release every_file "C.wav" 2 one_sound_player
       world_300).1
    (SoundPlayer.load Release every_file "C.wav" 2 one_sound_player
       world_300).2
  = Done (one_sound_player, world_300).
Proof.
  apply (SoundPlayer_load_then_unload Release every_file "C.wav"
           (AudioProperties.default world_300) 2 one_sound_player world_300);
    try (vm_compute; reflexivity).
  intros e He.
  assert (SoundPlayer.id e = 7%Z) as ->.
  { vm_compute in He. apply list_elem_of_singleton in He. by rewrite He. }
  vm_compute. by eexists.
Defined.

Lemma instances_have_properties_engine (statuses : list Status)
    (p : SoundPlayer.t) :
  instances_have_properties p ->
  instances_have_properties
    (SoundPlayer.mk (SoundPlayer.globalVolume_ p)
       (SoundPlayer.soundBuffers_ p) (SoundPlayer.soundProperties_ p)
       (zip_with (fun s e => SoundPlayer.onSound (SoundSource.setStatus s) e)
          statuses (SoundPlayer.sounds_ p))).
Proof.
  intros Hwf e He. simpl in *.
  apply elem_of_zip_with in He as (s & e0 & -> & _ & He0).
  simpl. by apply Hwf.
Qed.

(** X18. In every state a sound player reaches from its construction,
    whatever the audio engine does to the statuses of the instances,
    each active instance has a properties entry. So [setGlobalVolume]
    never meets a missing entry there: in both builds it returns, logs
    nothing, and rescales every active instance. *)
Theorem SoundPlayer_reachable_instances_have_properties
    (b : Build) (v : float) (p : SoundPlayer.t) (w : World) :
  reachable p ->
  instances_have_properties p
  ∧ SoundPlayer.setGlobalVolume b v p w
    = Done (SoundPlayer.mk (AudioPlayer.setGlobalVolume v)
              (SoundPlayer.soundBuffers_ p) (SoundPlayer.soundProperties_ p)
              (rescaled (AudioPlayer.setGlobalVolume v)
                        (SoundPlayer.soundProperties_ p)
                 <$> SoundPlayer.sounds_ p),
            w).
Proof.
  intros Hreach.
  assert (instances_have_properties p) as Hwf.
  { clear b v w.
    induction Hreach as
        [ w
        | b fs filepath i p w _ IH
        | b fs filepath properties i p w _ IH
        | b position i p p' w w' _ IH Hplay
        | flag p _ IH
        | p _ IH
        | b v p p' w w' _ IH Hset
        | b i p p' w w' _ IH Hunload
        | statuses p _ _ IH ].
    - apply instances_have_properties_construct.
    - by apply (instances_have_properties_load b fs filepath
                  (AudioProperties.default w) i p w).
    - by apply (instances_have_properties_load b fs filepath properties
                  i p w).
    - by apply (instances_have_properties_play b position i p p' w w').
    - by apply instances_have_properties_pause.
    - by apply instances_have_properties_stop.
    - by apply (instances_have_properties_setGlobalVolume b v p p' w w').
    - by apply (instances_have_properties_unload b i p p' w w').
    - by apply instances_have_properties_engine. }
  split; [done|]. by apply SoundPlayer_setGlobalVolume_all_found.
Qed.

Lemma one_sound_player_reachable : reachable one_sound_player.
Proof.
  pose (p0 := (SoundPlayer.construct initialWorld).1).
  pose (p1 := SoundPlayer.mk (of_Z 50) ∅ ∅ []).
  pose (p2 := (SoundPlayer.load_with Release every_file "B.wav"
                 (AudioProperties.construct (of_Z 40) (of_Z 1) (of_Z 1)
                    (of_Z 1) false world_300) 7 p1 world_300).1).
  assert (reachable p1) as H1.
  { apply (reach_setGlobalVolume Release (of_Z 50) p0 p1 world_300 world_300);
      [apply reach_construct | vm_compute; reflexivity]. }
  assert (reachable p2) as H2 by (by apply reach_load_with).
  apply (reach_play Release (AudioPlayer.getListenerPosition world_300) 7
           p2 one_sound_player world_300 world_300 H2).
  vm_compute. reflexivity.
Defined.

Lemma one_sound_player_has_properties :
  instances_have_properties one_sound_player.
Proof.
  intros e He.
  assert (SoundPlayer.id e = 7%Z) as ->.
  { vm_compute in He. apply list_elem_of_singleton in He. by rewrite He. }
  vm_compute. by eexists.
Qed.

Lemma SoundPlayer_reachable_witness :
  instances_have_properties one_sound_player
  ∧ ∃ p', SoundPlayer.setGlobalVolume Debug (of_Z 10) one_sound_player
            world_300 = Done (p', world_300).
Proof.
  destruct (SoundPlayer_reachable_instances_have_properties Debug (of_Z 10)
              one_sound_player world_300 one_sound_player_reachable)
    as [Hwf Hset].
  split; [exact Hwf|]. eexists. exact Hset.
Defined.

(** X19. [pause(true)] leaves no active instance playing and
    [pause(false)] leaves none paused; both keep the number of
    instances, their ids and order, and [pause(true)] does not revive a
    stopped instance. *)
Theorem SoundPlayer_pause_statuses (flag : bool) (p : SoundPlayer.t) :
  Forall (fun e => effect_status e ≠ Playing)
    (SoundPlayer.sounds_ (SoundPlayer.pause true p))
  ∧ Forall (fun e => effect_status e ≠ Paused)
      (SoundPlayer.sounds_ (SoundPlayer.pause false p))
  ∧ SoundPlayer.id <$> SoundPlayer.sounds_ (SoundPlayer.pause flag p)
    = SoundPlayer.id <$> SoundPlayer.sounds_ p
  ∧ (∀ k e, SoundPlayer.sounds_ p !! k = Some e ->
       effect_status e = Stopped ->
       ∃ e', SoundPlayer.sounds_ (SoundPlayer.pause flag p) !! k = Some e'
         ∧ effect_status e' = Stopped).
Proof.
  split; [|split; [|split]].
  - simpl. apply Forall_fmap, Forall_forall. intros e _.
    destruct e as [[[[] ? ? ? ? ? ?] buf] i]; discriminate.
  - simpl. apply Forall_fmap, Forall_forall. intros e _.
    destruct e as [[[[] ? ? ? ? ? ?] buf] i]; discriminate.
  - unfold SoundPlayer.pause. simpl.
    destruct flag; rewrite <- list_fmap_compose; apply list_fmap_ext;
      intros k e _; simpl; [done|].
    unfold SoundPlayer.resumeEffect. by case_decide.
  - intros k e Hk Hs. unfold SoundPlayer.pause. simpl.
    destruct e as [[[st ? ? ? ? ? ?] buf] i].
    unfold effect_status, Sound.getStatus, SoundSource.getStatus in Hs.
    simpl in Hs. subst st.
    destruct flag; rewrite list_lookup_fmap, Hk; simpl; by eexists.
Qed.

Lemma SoundPlayer_pause_witness :
  ∃ e', SoundPlayer.sounds_ (SoundPlayer.pause false
                               (SoundPlayer.pause true
                                  (SoundPlayer.mk (of_Z 100) ∅ ∅
                                     [SoundPlayer.mkEffect
                                        (Sound.construct
                                           (mkSoundBuffer "a.wav")) 1])))
        !! 0%nat = Some e'
    ∧ effect_status e' = Stopped.
Proof.
  destruct (SoundPlayer_pause_statuses false
              (SoundPlayer.pause true
                 (SoundPlayer.mk (of_Z 100) ∅ ∅
                    [SoundPlayer.mkEffect
                       (Sound.construct (mkSoundBuffer "a.wav")) 1])))
    as (_ & _ & _ & H).
  apply (H 0%nat (SoundPlayer.mkEffect
                    (Sound.construct (mkSoundBuffer "a.wav")) 1));
    reflexivity.
Defined.

(** ** AudioProperties *)

Lemma SFcompare_refl (x : float) :
  is_nan x = false -> SFcompare x x = Some Eq.
Proof.
  destruct x as [[]|[]| |[] m e]; simpl; try done; intros _;
    by rewrite Z.compare_refl, Pos.compare_cont_refl.
Qed.

Lemma eqb_refl (x : float) : eqb x x = negb (is_nan x).
Proof.
  unfold eqb, SFeqb. destruct (is_nan x) eqn:E.
  - by destruct x.
  - by rewrite SFcompare_refl.
Qed.

Lemma eqb_sym (x y : float) : eqb x y = eqb y x.
Proof.
  unfold eqb, SFeqb. rewrite (SFcompare_swap x y).
  by destruct (SFcompare x y) as [[]|].
Qed.

(** X20. [operator!=] is the negation of [operator==], and
    [operator==] is symmetric. An object equals itself, and its copy,
    exactly when none of its five numbers is a NaN: the comparison is
    the exact comparison of floats, so an object whose pitch is a NaN
    differs from itself. *)
Theorem AudioProperties_equality (ap1 ap2 : AudioProperties.t) :
  AudioProperties.operator_neq ap1 ap2
  = negb (AudioProperties.operator_eq ap1 ap2)
  ∧ AudioProperties.operator_eq ap1 ap2
    = AudioProperties.operator_eq ap2 ap1
  ∧ AudioProperties.operator_eq ap1 (AudioProperties.copy ap1)
    = AudioProperties.operator_eq ap1 ap1
  ∧ AudioProperties.operator_eq ap1 ap1
    = negb (is_nan (AudioProperties.getVolume ap1)
            || is_nan (AudioProperties.getAttenuation ap1)
            || is_nan (AudioProperties.getPitch ap1)
            || is_nan (AudioProperties.getMinDistance2D ap1)
            || is_nan (AudioProperties.getMinDistance3D ap1)).
Proof.
  destruct ap1 as [v1 a1 p1 d1 m1 r1], ap2 as [v2 a2 p2 d2 m2 r2].
  unfold AudioProperties.operator_neq, AudioProperties.operator_eq,
    AudioProperties.copy, neqb. simpl.
  change SFeqb with eqb. split; [|split; [|split]].
  - rewrite !negb_andb.
    by destruct r1, r2.
  - rewrite (eqb_sym v1 v2), (eqb_sym a1 a2), (eqb_sym p1 p2),
      (eqb_sym d1 d2), (eqb_sym m1 m2).
    by destruct r1, r2.
  - done.
  - rewrite !eqb_refl, !negb_orb.
    rewrite bool_decide_true by done. by rewrite andb_true_r.
Qed.

Example AudioProperties_nan_pitch_differs_from_itself (w : World) :
  let ap := AudioProperties.setPitch S754_nan (AudioProperties.default w) in
  AudioProperties.operator_eq ap ap = false
  ∧ AudioProperties.operator_neq ap ap = true.
Proof.
  intros ap. split; reflexivity.
Qed.

(** The greater of two floats by [fmaxf], for a bound that is a
    number and that only itself compares equal to (a bound other than
    zero). *)
Lemma fmaxf_raised (a lo : float) :
  SFcompare lo lo = Some Eq ->
  (SFcompare a lo = Some Eq -> a = lo) ->
  raised a lo (fmaxf a lo).
Proof.
  intros Hlo Heq.
  destruct (fmaxf_cases a lo Hlo) as [[Hmost Hgreater Hrange] _].
  split; [| |exact Hrange].
  - intros H. apply Hmost. unfold leb, ltb, SFleb, SFltb in *.
    by destruct (SFcompare a lo) as [[]|].
  - intros H. unfold leb, ltb, SFleb, SFltb in *.
    destruct (SFcompare lo a) as [[]|] eqn:E; try discriminate H.
    + apply SFcompare_both in E. simpl in E.
      rewrite Hmost by (by rewrite E). symmetry. by apply Heq.
    + by apply Hgreater.
Qed.

Lemma compares_equal_to_1 (a : float) :
  SFcompare a (of_Z 1) = Some Eq -> a = of_Z 1.
Proof.
  intros [H|(s & s' & _ & H)]%SFcompare_Eq; [done|].
  vm_compute in H. discriminate H.
Qed.

(** X21. [setMinDistance2D] and the constructor store the greater of
    the argument and 1 (1 for a NaN), compute the 3D distance from that
    stored value and the depth of the listener, and [setMinDistance2D]
    leaves the four other members alone. *)
Theorem AudioProperties_minDistance2D_at_least_1
    (volume attenuation pitch minDistance2d : float)
    (relativeToListener : bool) (w : World) (p : AudioProperties.t) :
  let p' := AudioProperties.setMinDistance2D minDistance2d w p in
  let p0 := AudioProperties.construct volume attenuation pitch minDistance2d
              relativeToListener w in
  raised minDistance2d (of_Z 1) (AudioProperties.getMinDistance2D p')
  ∧ raised minDistance2d (of_Z 1) (AudioProperties.getMinDistance2D p0)
  ∧ follows_listener (p', w)
  ∧ AudioProperties.getMinDistance2D
      (AudioProperties.setMinDistance2D S754_nan w p) = of_Z 1
  ∧ AudioProperties.getVolume p' = AudioProperties.getVolume p
  ∧ AudioProperties.getAttenuation p' = AudioProperties.getAttenuation p
  ∧ AudioProperties.getPitch p' = AudioProperties.getPitch p
  ∧ AudioProperties.isRelativeToListener p'
    = AudioProperties.isRelativeToListener p
  ∧ AudioProperties.getPitch p0 = pitch
  ∧ AudioProperties.isRelativeToListener p0 = relativeToListener.
Proof.
  intros p' p0.
  assert (SFcompare (of_Z 1) (of_Z 1) = Some Eq) as H1
    by (vm_compute; reflexivity).
  split; [apply fmaxf_raised; [done|apply compares_equal_to_1]|].
  split; [apply fmaxf_raised; [done|apply compares_equal_to_1]|].
  split; [done|]. split; [vm_compute; reflexivity|]. done.
Qed.

(** ** Math *)

Lemma mul_comm (x y : float) : mul x y = mul y x.
Proof.
  unfold mul.
  destruct x as [sx|sx| |sx mx ex], y as [sy|sy| |sy my ey]; simpl;
    try reflexivity; try (by rewrite xorb_comm).
  by rewrite xorb_comm, Pos.mul_comm, Z.add_comm.
Qed.

(** X22. [dotProduct] does not depend on the order of its two
    arguments, in single precision and for every pair of vectors
    (infinite and NaN components included). *)
Theorem dotProduct_commutes (vec1 vec2 : Vector2f) :
  Math.dotProduct vec1 vec2 = Math.dotProduct vec2 vec1.
Proof.
  unfold Math.dotProduct.
  by rewrite (mul_comm (v2x vec1)), (mul_comm (v2y vec1)).
Qed.

Section PascalTriangleBounds.

Local Open Scope Z_scope.
Import Math.

(** X23. As long as [n] is below [INT_MAX] and every product
    [row[i - 1] * (n - i + 1)] of the first loop, which is
    [C(n, i - 1) * (n - i + 1)], is at most [INT_MAX],
    [pascalTriangle(n)] returns row [n] of the triangle, of length
    [n + 1]. *)
Theorem pascalTriangle_exact_without_overflow (n : nat) :
  Z.of_nat n < INT_MAX ->
  (∀ k, (S k <= n / 2)%nat ->
        binomial n k * (Z.of_nat n - Z.of_nat k) <= INT_MAX) ->
  pascalTriangle (Z.of_nat n) = Returns (binomial_row n)
  ∧ length (binomial_row n) = S n
  ∧ ∀ i, (i <= n)%nat -> binomial_row n !! i = Some (binomial n i).
Proof.
  intros Hn Hfit. split; [by apply pascalTriangle_exact|].
  split; [apply binomial_row_length|]. apply binomial_row_lookup.
Qed.

Lemma pascalTriangle_exact_witness :
  pascalTriangle 6 = Returns (binomial_row 6).
Proof.
  apply (pascalTriangle_exact_without_overflow 6).
  - reflexivity.
  - intros k Hk. change (6 / 2)%nat with 3%nat in Hk.
    destruct k as [|[|[|k]]]; [vm_compute; discriminate..|lia].
Defined.

(** X24. The rows 0 to 29 are computed exactly. *)
Theorem pascalTriangle_rows_0_to_29 (n : nat) :
  (n <= 29)%nat ->
  pascalTriangle (Z.of_nat n) = Returns (binomial_row n).
Proof. apply pascalTriangle_upto_29. Qed.

Lemma pascalTriangle_rows_0_to_29_witness :
  pascalTriangle 22 = Returns (binomial_row 22).
Proof. apply (pascalTriangle_rows_0_to_29 22). lia. Defined.

(** A loop that keeps an invariant and never fails. *)
Lemma for_loop_invariant {S : Type} (Inv : S -> Prop)
    (body : Z -> S -> option S) (count : nat) (i : Z) (s : S) :
  0 <= i -> i + Z.of_nat count <= INT_MAX ->
  Inv s ->
  (∀ j s, i <= j < i + Z.of_nat count -> Inv s ->
          ∃ s', body j s = Some s' ∧ Inv s') ->
  ∃ s', for_loop count i body s = Some s' ∧ Inv s'.
Proof.
  revert i s. induction count as [|count IH]; intros i s Hi Hmax Hs Hbody.
  - by exists s.
  - destruct (Hbody i s ltac:(lia) Hs) as (s1 & Hs1 & Hinv1).
    cbn [for_loop]. rewrite Hs1. cbn [mbind option_bind].
    assert (iadd i 1 = i + 1) as ->.
    { unfold iadd. rewrite wrap_small; unfold INT_MIN, INT_MAX in *; lia. }
    apply IH; [lia | lia | done |].
    intros j s' Hj. apply Hbody. lia.
Qed.

Lemma mirrored_length (row1 : list Z) (n h k : nat) :
  length (mirrored row1 n h k) = S n.
Proof. unfold mirrored. by rewrite length_fmap, length_seq. Qed.

Lemma mirrored_lookup (row1 : list Z) (n h k j : nat) :
  (j <= n)%nat ->
  mirrored row1 n h k !! j
  = Some (if decide (h < j ≤ k)%nat
          then default 0 (row1 !! (n - j)%nat)
          else default 0 (row1 !! j)).
Proof.
  intros Hj. unfold mirrored.
  by rewrite list_lookup_fmap, lookup_seq_lt by lia.
Qed.

Lemma mirrored_start (row1 : list Z) (n h : nat) :
  length row1 = S n -> mirrored row1 n h h = row1.
Proof.
  intros Hlen. apply list_eq. intros j.
  destruct (decide (j ≤ n)%nat) as [Hj|Hj].
  - rewrite mirrored_lookup by done.
    rewrite decide_False by lia.
    destruct (lookup_lt_is_Some_2 row1 j ltac:(lia)) as [x Hx].
    by rewrite Hx.
  - rewrite !lookup_ge_None_2; [done|..];
      rewrite ?mirrored_length; lia.
Qed.

Lemma mirrored_step (row1 : list Z) (n h k : nat) :
  Z.of_nat n < INT_MAX ->
  (h <= k < n)%nat -> (n <= 2 * h + 1)%nat ->
  vec_get (mirrored row1 n h k) (isub (Z.of_nat n) (Z.of_nat (S k)))
  ≫= vec_set (mirrored row1 n h k) (Z.of_nat (S k))
  = Some (mirrored row1 n h (S k)).
Proof.
  intros Hn Hk Hh.
  assert (isub (Z.of_nat n) (Z.of_nat (S k)) = Z.of_nat (n - S k)) as ->.
  { unfold isub. rewrite wrap_small; unfold INT_MIN, INT_MAX in *; lia. }
  unfold vec_get.
  replace (0 <=? Z.of_nat (n - S k)) with true
    by (symmetry; apply Z.leb_le; lia).
  rewrite Nat2Z.id, mirrored_lookup by lia.
  rewrite decide_False by lia. cbn [mbind option_bind].
  unfold vec_set. rewrite mirrored_length.
  rewrite andb_true_intro by (split; [apply Z.leb_le|apply Z.ltb_lt]; lia).
  rewrite Nat2Z.id. f_equal. apply list_eq. intros j.
  destruct (decide (j ≤ n)%nat) as [Hj|Hj].
  - rewrite (mirrored_lookup row1 n h (S k) j) by done.
    destruct (decide (j = S k)) as [->|Hne].
    + rewrite list_lookup_insert_eq by (rewrite mirrored_length; lia).
      by rewrite decide_True by lia.
    + rewrite list_lookup_insert_ne by done.
      rewrite mirrored_lookup by done.
      destruct (decide (h < j ≤ k)%nat), (decide (h < j ≤ S k)%nat);
        (done || lia).
  - rewrite !lookup_ge_None_2; [done|..];
      rewrite ?length_insert, mirrored_length; lia.
Qed.

(** X25. For every [n] from 0 up to (excluding) [INT_MAX],
    [pascalTriangle(n)] reads and writes inside its vector only and
    returns [n + 1] entries that start and end with 1 and read the same
    in both directions, whether or not a product has overflowed on the
    way. For [n = -1] the vector is empty and the write [row[0] = 1] is
    outside it; for every [n] from [INT_MIN] to -2 the constructor of
    the vector throws [std::length_error] and nothing is written. *)
Theorem pascalTriangle_in_bounds_and_symmetric (n : nat) (z : Z) :
  (INT_MIN <= z <= -2 ->
   vector (iadd z 1) = None ∧ pascalTriangle z = LengthError)
  ∧ vector (iadd (-1) 1) = Some []
  ∧ vec_set [] 0 1 = None
  ∧ pascalTriangle (-1) = OutOfBounds
  ∧ (Z.of_nat n < INT_MAX ->
     ∃ row, pascalTriangle (Z.of_nat n) = Returns row
       ∧ length row = S n
       ∧ row !! O = Some 1
       ∧ row !! n = Some 1
       ∧ ∀ i, (i <= n)%nat -> row !! (n - i)%nat = row !! i).
Proof.
  split.
  { intros Hz. unfold pascalTriangle, vector.
    assert (iadd z 1 = z + 1) as ->.
    { unfold iadd. rewrite wrap_small; unfold INT_MIN, INT_MAX in *; lia. }
    by replace (z + 1 <? 0) with true by (symmetry; apply Z.ltb_lt; lia). }
  split; [reflexivity|]. split; [reflexivity|]. split; [reflexivity|].
  intros Hn. unfold pascalTriangle, vector.
  assert (iadd (Z.of_nat n) 1 = Z.of_nat (S n)) as ->.
  { unfold iadd. rewrite wrap_small; unfold INT_MIN, INT_MAX in *; lia. }
  replace (Z.of_nat (S n) <? 0) with false
    by (symmetry; apply Z.ltb_ge; lia).
  assert (n / 2 <= n)%nat as Hhalf
    by (apply Nat.Div0.div_le_upper_bound; lia).
  assert (n <= 2 * (n / 2) + 1)%nat as Hhalf2.
  { pose proof (Nat.div_mod_eq n 2).
    pose proof (Nat.mod_upper_bound n 2). lia. }
  assert (2 * (n / 2) <= n)%nat as Hhalf3.
  { pose proof (Nat.div_mod_eq n 2). lia. }
  assert (idiv (Z.of_nat n) 2 = Z.of_nat (n / 2)) as ->.
  { unfold idiv. rewrite Z.quot_div_nonneg by lia.
    change 2 with (Z.of_nat 2). rewrite <- (Nat2Z.inj_div n 2).
    rewrite wrap_small; unfold INT_MIN, INT_MAX in *; lia. }
  assert (iadd (Z.of_nat (n / 2)) 1 = Z.of_nat (S (n / 2))) as ->.
  { unfold iadd. rewrite wrap_small; unfold INT_MIN, INT_MAX in *; lia. }
  rewrite Nat2Z.id, vec_set_start. cbn [mbind option_bind].
  set (h := (n / 2)%nat) in *.
  (* the first loop *)
  destruct (for_loop_invariant
              (fun row : list Z => length row = S n ∧ row !! O = Some 1)
              (fun i row =>
                 prev ← vec_get row (isub i 1);
                 vec_set row i (idiv (imul prev (iadd (isub (Z.of_nat n) i) 1)) i))
              h 1 (binomial_row_upto n 0))
    as (row1 & Hloop1 & Hlen1 & Hfirst1).
  { lia. }
  { unfold INT_MAX in *. lia. }
  { split; [apply upto_length|].
    rewrite upto_lookup by lia. rewrite decide_True by lia.
    by rewrite binomial_0_r. }
  { intros j row Hj [Hlen Hfirst].
    assert (isub j 1 = j - 1) as ->.
    { unfold isub. rewrite wrap_small; unfold INT_MIN, INT_MAX in *; lia. }
    unfold vec_get.
    replace (0 <=? j - 1) with true by (symmetry; apply Z.leb_le; lia).
    destruct (lookup_lt_is_Some_2 row (Z.to_nat (j - 1)) ltac:(lia))
      as [prev ->].
    cbn [mbind option_bind]. unfold vec_set. rewrite Hlen.
    rewrite andb_true_intro
      by (split; [apply Z.leb_le|apply Z.ltb_lt]; lia).
    eexists. split; [reflexivity|]. rewrite length_insert.
    split; [done|]. rewrite list_lookup_insert_ne by lia. done. }
  match goal with
  | |- context [for_range 1 ?hi ?body (binomial_row_upto n 0)] =>
      assert (for_range 1 hi body (binomial_row_upto n 0) = Some row1) as ->
  end.
  { unfold for_range.
    by replace (Z.to_nat (Z.of_nat (S h) - 1)) with h by lia. }
  cbn [mbind option_bind].
  (* the second loop *)
  unfold for_range.
  replace (Z.to_nat (Z.of_nat n + 1 - Z.of_nat (S h))) with (n - h)%nat
    by lia.
  pose proof (for_loop_steps (mirrored row1 n h)
                (fun i row =>
                   mirror ← vec_get row (isub (Z.of_nat n) i);
                   vec_set row i mirror)
                (n - h) h) as Hloop2.
  rewrite mirrored_start in Hloop2 by done.
  rewrite Hloop2; [| lia |].
  - replace (h + (n - h))%nat with n by lia.
    eexists. split; [reflexivity|].
    split; [apply mirrored_length|].
    split; [|split].
    + rewrite mirrored_lookup by lia. rewrite decide_False by lia.
      by rewrite Hfirst1.
    + rewrite mirrored_lookup by lia.
      case_decide; [by rewrite Nat.sub_diag, Hfirst1|].
      replace (row1 !! n) with (row1 !! O) by (f_equal; lia).
      by rewrite Hfirst1.
    + intros i Hi. rewrite !mirrored_lookup by lia. f_equal.
      destruct (decide (h < n - i ≤ n)%nat), (decide (h < i ≤ n)%nat).
      * lia.
      * f_equal. f_equal. lia.
      * done.
      * f_equal. f_equal. lia.
  - intros j Hj. apply mirrored_step; [done | lia | done].
Qed.

Lemma pascalTriangle_in_bounds_witness :
  pascalTriangle (-5) = LengthError
  ∧ pascalTriangle (-1) = OutOfBounds
  ∧ ∃ row, pascalTriangle 33 = Returns row
      ∧ length row = 34%nat
      ∧ row !! O = Some 1
      ∧ row !! 33%nat = Some 1
      ∧ ∀ i, (i <= 33)%nat -> row !! (33 - i)%nat = row !! i.
Proof.
  destruct (pascalTriangle_in_bounds_and_symmetric 33 (-5))
    as (Hthrow & _ & _ & Hwrite & Hrow).
  split; [apply Hthrow; unfold INT_MIN; lia|].
  split; [exact Hwrite|]. apply Hrow. reflexivity.
Defined.

End PascalTriangleBounds.

(** ** Rescaling and re-setting *)

Lemma setGlobalVolume_idempotent (v : float) :
  AudioPlayer.setGlobalVolume (AudioPlayer.setGlobalVolume v)
  = AudioPlayer.setGlobalVolume v.
Proof. apply setVolume_again. Qed.

Lemma rescaled_rescaled (G1 G2 : float) (props : gmap Z AudioProperties.t)
    (e : SoundPlayer.SoundEffect) :
  rescaled G2 props (rescaled G1 props e) = rescaled G2 props e.
Proof.
  unfold rescaled. destruct (props !! SoundPlayer.id e) eqn:E; simpl.
  - by rewrite E.
  - by rewrite E.
Qed.

(** X26. The rescaling of [setGlobalVolume] starts from the nominal
    volumes, not from the volumes in effect: after two calls the player
    is as after the second alone, so two calls with 50 do not quarter
    the volumes; and reading the global volume back into
    [setGlobalVolume] changes nothing more. This holds of a music player
    and of a sound player whose active instances have properties. *)
Theorem setGlobalVolume_is_not_cumulative
    (b : Build) (v1 v2 : float) (p : MusicPlayer.t) (sp : SoundPlayer.t)
    (w : World) :
  MusicPlayer.setGlobalVolume v2 (MusicPlayer.setGlobalVolume v1 p)
  = MusicPlayer.setGlobalVolume v2 p
  ∧ MusicPlayer.setGlobalVolume
      (MusicPlayer.getGlobalVolume (MusicPlayer.setGlobalVolume v1 p))
      (MusicPlayer.setGlobalVolume v1 p)
    = MusicPlayer.setGlobalVolume v1 p
  ∧ (instances_have_properties sp ->
     ∃ sp1 sp2,
       SoundPlayer.setGlobalVolume b v1 sp w = Done (sp1, w)
       ∧ SoundPlayer.setGlobalVolume b v2 sp w = Done (sp2, w)
       ∧ SoundPlayer.setGlobalVolume b v2 sp1 w = Done (sp2, w)).
Proof.
  assert (∀ v, MusicPlayer.setGlobalVolume v (MusicPlayer.setGlobalVolume v1 p)
               = MusicPlayer.setGlobalVolume v p) as Hmusic.
  { intros v. unfold MusicPlayer.setGlobalVolume. simpl. f_equal.
    apply map_eq. intros j. rewrite !lookup_fmap.
    by destruct (MusicPlayer.tracks_ p !! j) as [track|]. }
  split; [apply Hmusic|]. split.
  - rewrite Hmusic. unfold MusicPlayer.setGlobalVolume,
      MusicPlayer.getGlobalVolume. simpl.
    by rewrite setGlobalVolume_idempotent.
  - intros Hwf. eexists _, _.
    split; [by apply SoundPlayer_setGlobalVolume_all_found|].
    split; [by apply SoundPlayer_setGlobalVolume_all_found|].
    rewrite SoundPlayer_setGlobalVolume_all_found.
    + simpl. f_equal. f_equal. f_equal.
      rewrite <- list_fmap_compose. apply list_fmap_ext.
      intros k e _. apply rescaled_rescaled.
    + intros e. simpl. intros (e0 & -> & He0)%list_elem_of_fmap.
      rewrite rescaled_id. by apply Hwf.
Qed.

Lemma setGlobalVolume_is_not_cumulative_witness :
  ∃ sp1 sp2,
    SoundPlayer.setGlobalVolume Release (of_Z 50) one_sound_player world_300
    = Done (sp1, world_300)
    ∧ SoundPlayer.setGlobalVolume Release (of_Z 50) one_sound_player world_300
      = Done (sp2, world_300)
    ∧ SoundPlayer.setGlobalVolume Release (of_Z 50) sp1 world_300
      = Done (sp2, world_300).
Proof.
  apply (proj2 (proj2 (setGlobalVolume_is_not_cumulative Release (of_Z 50)
                         (of_Z 50) one_track_player one_sound_player
                         world_300))).
  exact one_sound_player_has_properties.
Defined.

(** X27. Writing a value read from an object back into the same
    object changes nothing: [setVolume(getVolume())] and
    [setAttenuation(getAttenuation())] on an object whose volume and
    attenuation were stored by the setters or the constructor, and
    [setMinDistance2D(getMinDistance2D())] as long as the listener has
    the depth it had when the distance was stored. *)
Theorem AudioProperties_set_what_was_got
    (volume attenuation pitch minDistance2d : float)
    (relativeToListener : bool) (w : World) :
  let p := AudioProperties.construct volume attenuation pitch minDistance2d
             relativeToListener w in
  AudioProperties.setVolume (AudioProperties.getVolume p) p = p
  ∧ AudioProperties.setAttenuation (AudioProperties.getAttenuation p) p = p
  ∧ AudioProperties.setMinDistance2D (AudioProperties.getMinDistance2D p) w p
    = p.
Proof.
  intros p.
  assert (SFcompare (of_Z 1) (of_Z 1) = Some Eq) as H1
    by (vm_compute; reflexivity).
  assert (fmaxf (fminf (AudioProperties.getVolume p) (of_Z 100)) (of_Z 0)
          = AudioProperties.getVolume p) as Hv.
  { apply setVolume_again. }
  assert (fmaxf (AudioProperties.getAttenuation p) (of_Z 0)
          = AudioProperties.getAttenuation p) as Ha.
  { by apply fmaxf_again. }
  assert (fmaxf (AudioProperties.getMinDistance2D p) (of_Z 1)
          = AudioProperties.getMinDistance2D p) as Hd.
  { by apply fmaxf_again. }
  unfold AudioProperties.setVolume, AudioProperties.setAttenuation,
    AudioProperties.setMinDistance2D.
  cbv zeta. rewrite Hv, Ha, Hd. done.
Qed.
